(** * faah-sound: the detection-and-decision core

    A shallow embedding of the core components of the extension and of the
    code around them, with the properties of its specification and further
    properties of the code:

    - [src/core/debounce.ts]       the [DebounceGate] rate limiter;
    - [src/core/patternMatcher.ts] [stripAnsiSequences] and the
                                   [RollingPatternMatcher];
    - [src/core/configParser.ts]   the configuration normalizers;
    - [src/extension.ts]           the event handlers and the reload of the
                                   controller, [validateSoundPath];
    - [src/soundPlayer.ts]         the choice of a player and the PowerShell
                                   scripts.

    Conventions.  A JavaScript [number] is an IEEE double.  It is modelled by
    the type [number]: NaN, the two infinities, and the finite values as exact
    rationals, so rounding of a finite result is not modelled and the two
    zeros are one value.  A JavaScript string is a sequence of UTF-16 code
    units, modelled as a list of naturals ([N]).  Mutated objects are modelled
    by explicit state passing: an operation returns its result together with
    the object after the call. *)

From Stdlib Require Import ZArith NArith QArith Qround Lqa Lia Ascii String.
From stdpp Require Import base option list gmap.

Local Open Scope Z_scope.

(** ** JavaScript numbers *)

Module JsNumber.

Inductive number : Type :=
| NaN
| NegInf
| Finite (q : Q)
| PosInf.

Definition of_Z (z : Z) : number := Finite (inject_Z z).
Definition of_nat (n : nat) : number := of_Z (Z.of_nat n).

Definition Qltb (p q : Q) : bool := negb (Qle_bool q p).

(** [a < b] *)
Definition ltb (a b : number) : bool :=
  match a, b with
  | NaN, _ | _, NaN => false
  | NegInf, NegInf => false
  | NegInf, _ => true
  | _, NegInf => false
  | PosInf, _ => false
  | Finite _, PosInf => true
  | Finite p, Finite q => Qltb p q
  end.

(** [a <= b] *)
Definition leb (a b : number) : bool :=
  match a, b with
  | NaN, _ | _, NaN => false
  | NegInf, _ => true
  | _, NegInf => false
  | _, PosInf => true
  | PosInf, _ => false
  | Finite p, Finite q => Qle_bool p q
  end.

(** [a >= b] is [b <= a]. *)
Definition geb (a b : number) : bool := leb b a.

(** [a - b] *)
Definition sub (a b : number) : number :=
  match a, b with
  | NaN, _ | _, NaN => NaN
  | PosInf, PosInf => NaN
  | NegInf, NegInf => NaN
  | PosInf, _ => PosInf
  | NegInf, _ => NegInf
  | Finite _, PosInf => NegInf
  | Finite _, NegInf => PosInf
  | Finite p, Finite q => Finite (p - q)
  end.

(** [Math.max(a, b)]: NaN as soon as one argument is NaN. *)
Definition Math_max (a b : number) : number :=
  match a, b with
  | NaN, _ | _, NaN => NaN
  | _, _ => if ltb a b then b else a
  end.

(** [Math.min(a, b)] *)
Definition Math_min (a b : number) : number :=
  match a, b with
  | NaN, _ | _, NaN => NaN
  | _, _ => if ltb b a then b else a
  end.

(** Truncation of a finite value toward zero, as an integer. *)
Definition truncQ (q : Q) : Z := Z.quot (Qnum q) (Zpos (Qden q)).

(** [Math.trunc(a)] *)
Definition Math_trunc (a : number) : number :=
  match a with
  | Finite q => of_Z (truncQ q)
  | _ => a
  end.

(** [Number.isFinite(a)] for a value of type number. *)
Definition isFinite (a : number) : bool :=
  match a with Finite _ => true | _ => false end.

Definition is_negative (a : number) : Prop := ltb a (of_Z 0) = true.
Definition is_positive (a : number) : Prop := ltb (of_Z 0) a = true.
Definition is_zero (a : number) : Prop :=
  match a with Finite q => (q == 0)%Q | _ => False end.


(** [a === b] on numbers: NaN equals nothing, the infinities only themselves. *)
Definition strict_eqb (a b : number) : bool :=
  match a, b with
  | NegInf, NegInf | PosInf, PosInf => true
  | Finite p, Finite q => Qeq_bool p q
  | _, _ => false
  end.

(** SameValueZero, the equality of [Set] and [Map] keys: as [===], but NaN
    equals NaN. *)
Definition SameValueZero (a b : number) : bool :=
  match a, b with
  | NaN, NaN => true
  | _, _ => strict_eqb a b
  end.

(** ToIntegerOrInfinity, the conversion applied to an index argument. *)
Inductive integer_or_infinity : Type :=
| MinusInfinity
| Integer (z : Z)
| PlusInfinity.

Definition ToIntegerOrInfinity (a : number) : integer_or_infinity :=
  match a with
  | NaN => Integer 0
  | NegInf => MinusInfinity
  | PosInf => PlusInfinity
  | Finite q => Integer (truncQ q)
  end.

End JsNumber.

Import JsNumber.

(** ** JavaScript strings *)

Module JsString.

Definition code_unit : Type := N.
Abbreviation jsstring := (list code_unit).

(** A string literal, one code unit per character. *)
Definition str (s : String.string) : jsstring :=
  map N_of_ascii (String.list_ascii_of_string s).

Definition ESC : code_unit := 27%N.
Definition BEL : code_unit := 7%N.

(** [s.slice(start)]: the units from [start] on, a negative [start] counting
    from the end. *)
Definition slice (s : jsstring) (start : number) : jsstring :=
  let len := Z.of_nat (length s) in
  match ToIntegerOrInfinity start with
  | MinusInfinity => s
  | PlusInfinity => []
  | Integer rel =>
      let from := if rel <? 0 then Z.max (len + rel) 0 else Z.min rel len in
      drop (Z.to_nat from) s
  end.

(** White space and line terminators, the units [trim] removes. *)
Definition is_white_space (c : code_unit) : bool :=
  bool_decide (c ∈ [9; 10; 11; 12; 13; 32; 160; 5760; 8192; 8193; 8194; 8195;
                    8196; 8197; 8198; 8199; 8200; 8201; 8202; 8232; 8233;
                    8239; 8287; 12288; 65279]%N).

Fixpoint trimStart (s : jsstring) : jsstring :=
  match s with
  | c :: rest => if is_white_space c then trimStart rest else s
  | [] => []
  end.

Definition trimEnd (s : jsstring) : jsstring := reverse (trimStart (reverse s)).

(** [s.trim()] *)
Definition trim (s : jsstring) : jsstring := trimEnd (trimStart s).

End JsString.

Import JsString.

(** ** [src/core/debounce.ts] *)

Module Debounce.

(** The two private fields of the class. *)
Record DebounceGate : Type := mkGate {
  lastTriggeredAt : number;
  debounceMs : number
}.

(** [new DebounceGate(debounceMs)] *)
Definition new_DebounceGate (debounceMs : number) : DebounceGate :=
  {| lastTriggeredAt := of_Z 0;
     debounceMs := Math_max (of_Z 0) debounceMs |}.

(** [gate.updateDebounceMs(debounceMs)] *)
Definition updateDebounceMs (g : DebounceGate) (debounceMs : number) : DebounceGate :=
  {| lastTriggeredAt := lastTriggeredAt g;
     debounceMs := Math_max (of_Z 0) debounceMs |}.

(** [this.lastTriggeredAt = now] *)
Definition set_lastTriggeredAt (g : DebounceGate) (now : number) : DebounceGate :=
  {| lastTriggeredAt := now; debounceMs := debounceMs g |}.

(** [gate.canTrigger(now)]: the answer and the gate after the call. *)
Definition canTrigger (g : DebounceGate) (now : number) : bool * DebounceGate :=
  if leb (debounceMs g) (of_Z 0) then
    (true, set_lastTriggeredAt g now)
  else if ltb (sub now (lastTriggeredAt g)) (debounceMs g) then
    (false, g)
  else
    (true, set_lastTriggeredAt g now).

(** A run of [canTrigger] calls at the given times, oldest first. *)
Fixpoint canTrigger_all (g : DebounceGate) (times : list number)
  : list bool * DebounceGate :=
  match times with
  | [] => ([], g)
  | now :: rest =>
      let '(b, g1) := canTrigger g now in
      let '(bs, g2) := canTrigger_all g1 rest in
      (b :: bs, g2)
  end.

(** C1, as the specification words it: after an allowed call at [t0], a
    call at [t1] within the window is rejected, and the call at [t2] that
    follows is allowed as soon as [t2 - t0] reaches the window. *)
Definition window_claim (g : DebounceGate) (t0 t1 t2 : number) : Prop :=
  (canTrigger g t0).1 = true ->
  let g0 := (canTrigger g t0).2 in
  let g1 := (canTrigger g0 t1).2 in
  (ltb (sub t1 t0) (debounceMs g) = true -> canTrigger g0 t1 = (false, g0)) /\
  (geb (sub t2 t0) (debounceMs g) = true -> (canTrigger g1 t2).1 = true).

End Debounce.

(** ** The regular expression literal of [patternMatcher.ts]

    The constructs the literal [ANSI_SEQUENCE_PATTERN] is written with, and
    the backtracking matcher: alternatives are tried left to right, a star
    takes as many units as it can and gives them back one at a time. *)

Module Regex.

Definition char_class : Type := code_unit -> bool.

Inductive regex : Type :=
| Chars (p : char_class)          (* one unit of a class: [x], [[a-b]] *)
| Seq (r1 r2 : regex)             (* r1 r2 *)
| Alt (r1 r2 : regex)             (* r1|r2 *)
| Star (p : char_class).          (* [class]* , greedy *)

Definition one (c : code_unit) : char_class := fun x => (x =? c)%N.
Definition range (lo hi : code_unit) : char_class :=
  fun x => ((lo <=? x) && (x <=? hi))%N.
Definition either (p q : char_class) : char_class := fun x => p x || q x.
Definition except (c : code_unit) : char_class := fun x => negb (x =? c)%N.

Arguments one c%_N.
Arguments range (lo hi)%_N.
Arguments except c%_N.

(** [star_at p s k]: the matches of [[p]*] at the start of [s], longest
    first, each continued with [k] on the rest of the input. *)
Fixpoint star_at (p : char_class) (s : jsstring)
    (k : jsstring -> option jsstring) : option jsstring :=
  match s with
  | c :: rest =>
      if p c then
        match star_at p rest k with
        | Some r => Some r
        | None => k s
        end
      else k s
  | [] => k []
  end.

(** [match_at r s k]: the first match of [r] at the start of [s] whose rest
    [k] accepts; the result is what [k] returns. *)
Fixpoint match_at (r : regex) (s : jsstring)
    (k : jsstring -> option jsstring) : option jsstring :=
  match r with
  | Chars p =>
      match s with
      | c :: rest => if p c then k rest else None
      | [] => None
      end
  | Seq r1 r2 => match_at r1 s (fun rest => match_at r2 rest k)
  | Alt r1 r2 =>
      match match_at r1 s k with
      | Some r => Some r
      | None => match_at r2 s k
      end
  | Star p => star_at p s k
  end.

(** The number of units of the match of [r] that starts [s], if there is one. *)
Definition match_length (r : regex) (s : jsstring) : option nat :=
  match match_at r s Some with
  | Some rest => Some (length s - length rest)%nat
  | None => None
  end.

(** [s.replace(r, "")] for a global [r]: every match is deleted, the search
    resuming where the match ended.  [skip] counts the units of the current
    match still to delete.  An empty match deletes nothing and the search
    moves one unit on. *)
Fixpoint delete_matches (r : regex) (skip : nat) (s : jsstring) : jsstring :=
  match s with
  | [] => []
  | c :: rest =>
      match skip with
      | S n => delete_matches r n rest
      | O =>
          match match_length r s with
          | Some (S n) => delete_matches r n rest
          | Some O | None => c :: delete_matches r 0 rest
          end
      end
  end.

Definition replace_all_with_empty (r : regex) (s : jsstring) : jsstring :=
  delete_matches r 0 s.

End Regex.

Import Regex.

(** ** [src/core/patternMatcher.ts]: [stripAnsiSequences] *)

Module Ansi.

(** [/\x1B(?:[@-Z\\-_]|\[[0-?]*[ -/]*[@-~]|\][^\x07]*(?:\x07|\x1B\\))/g] *)
Definition ANSI_SEQUENCE_PATTERN : regex :=
  Seq (Chars (one ESC))
    (Alt (Chars (either (range 64 90) (range 92 95)))
    (Alt (Seq (Chars (one 91))
           (Seq (Star (range 48 63))
           (Seq (Star (range 32 47))
                (Chars (range 64 126)))))
         (Seq (Chars (one 93))
           (Seq (Star (except BEL))
                (Alt (Chars (one BEL))
                     (Seq (Chars (one ESC)) (Chars (one 92)))))))).

Definition stripAnsiSequences (value : jsstring) : jsstring :=
  replace_all_with_empty ANSI_SEQUENCE_PATTERN value.

(** A CSI sequence: ESC, [[], parameter units, intermediate units and a
    final unit. *)
Definition csi (params inter : jsstring) (final : code_unit) : jsstring :=
  ESC :: 91%N :: params ++ inter ++ [final].

Arguments csi params inter final%_N.

End Ansi.

Import Ansi.

(** ** [RegExp] objects

    The patterns given to the matcher are [RegExp] objects of the host.  What
    a pattern matches is the engine's business and stays a parameter:
    [exec src sticky text start] is the end index of the first match of the
    compiled pattern [src] in [text] that starts at [start] or later (at
    [start] exactly when [sticky]), if there is one.  The object itself
    carries the flags and the mutable [lastIndex]. *)

Module JsRegExp.

Section RegExp.

Context {Src : Type}.
Variable exec : Src -> bool -> jsstring -> nat -> option nat.

Record RegExp : Type := mkRegExp {
  source : Src;
  global : bool;
  sticky : bool;
  lastIndex : nat
}.

(** [pattern.lastIndex = i] *)
Definition set_lastIndex (pattern : RegExp) (i : nat) : RegExp :=
  {| source := source pattern; global := global pattern;
     sticky := sticky pattern; lastIndex := i |}.

(** [pattern.test(text)]: the answer and the pattern after the call.  A
    global or sticky pattern starts at its [lastIndex] and leaves there the
    end of the match, or 0 when there is none; any other pattern starts at 0
    and is left as it is. *)
Definition RegExp_test (pattern : RegExp) (text : jsstring) : bool * RegExp :=
  let stateful := global pattern || sticky pattern in
  let start := if stateful then lastIndex pattern else 0%nat in
  if (length text <? start)%nat then
    (false, if stateful then set_lastIndex pattern 0 else pattern)
  else
    match exec (source pattern) (sticky pattern) text start with
    | Some e => (true, if stateful then set_lastIndex pattern e else pattern)
    | None => (false, if stateful then set_lastIndex pattern 0 else pattern)
    end.

(** Two objects for the same pattern and flags, whatever their [lastIndex]. *)
Definition same_pattern (p q : RegExp) : Prop :=
  source p = source q /\ global p = global q /\ sticky p = sticky q.

End RegExp.

Arguments RegExp Src : clear implicits.

End JsRegExp.

Import JsRegExp.

(** ** [src/core/patternMatcher.ts]: [RollingPatternMatcher] *)

Module PatternMatcher.

Section Matcher.

(** The session objects used as keys of the buffer map. *)
Context {K : Type} `{Countable K}.
Context {Src : Type}.
Variable exec : Src -> bool -> jsstring -> nat -> option nat.

Record RollingPatternMatcher : Type := mkMatcher {
  buffers : gmap K jsstring;
  maxBufferChars : number
}.

(** [new RollingPatternMatcher(maxBufferChars)], the argument being optional
    with default 4096. *)
Definition new_RollingPatternMatcher (arg : option number) : RollingPatternMatcher :=
  {| buffers := ∅;
     maxBufferChars := Math_max (of_Z 256) (default (of_Z 4096) arg) |}.

(** [matcher.clear(key)] *)
Definition clear (m : RollingPatternMatcher) (key : K) : RollingPatternMatcher :=
  {| buffers := delete key (buffers m); maxBufferChars := maxBufferChars m |}.

Definition trimToMax (value : jsstring) (maxChars : number) : jsstring :=
  if leb (of_nat (length value)) maxChars then value
  else slice value (sub (of_nat (length value)) maxChars).

Definition testRegExp (pattern : RegExp Src) (text : jsstring) : bool * RegExp Src :=
  let pattern :=
    if global pattern || sticky pattern then set_lastIndex pattern 0 else pattern in
  RegExp_test exec pattern text.

(** The loop of [matches] over the patterns, left at the first match: the
    answer and the patterns after the call. *)
Fixpoint test_patterns (patterns : list (RegExp Src)) (combined : jsstring)
  : bool * list (RegExp Src) :=
  match patterns with
  | [] => (false, [])
  | pattern :: rest =>
      let '(found, pattern1) := testRegExp pattern combined in
      if found then (true, pattern1 :: rest)
      else
        let '(b, rest1) := test_patterns rest combined in
        (b, pattern1 :: rest1)
  end.

(** [matcher.matches(key, chunk, patterns)]: the answer, the matcher and the
    patterns after the call. *)
Definition matches (m : RollingPatternMatcher) (key : K) (chunk : jsstring)
    (patterns : list (RegExp Src))
  : bool * RollingPatternMatcher * list (RegExp Src) :=
  let previous := default [] (buffers m !! key) in
  let combined :=
    trimToMax (previous ++ stripAnsiSequences chunk) (maxBufferChars m) in
  let m1 := {| buffers := <[key := combined]> (buffers m);
               maxBufferChars := maxBufferChars m |} in
  let '(b, patterns1) := test_patterns patterns combined in
  (b, m1, patterns1).

(** Whether a pattern matches a text, tested as [matches] tests it. *)
Definition pattern_matches (pattern : RegExp Src) (text : jsstring) : bool :=
  fst (testRegExp pattern text).

(** *** Sequences of calls on one matcher *)

Inductive call : Type :=
| Matches (key : K) (chunk : jsstring) (patterns : list (RegExp Src))
| Clear (key : K).

Definition call_key (c : call) : K :=
  match c with Matches key _ _ | Clear key => key end.

(** The calls in order: the answers of the [matches] calls, each with its
    key, and the matcher at the end. *)
Fixpoint run (m : RollingPatternMatcher) (calls : list call)
  : list (K * bool) * RollingPatternMatcher :=
  match calls with
  | [] => ([], m)
  | Matches key chunk patterns :: rest =>
      let '(b, m1, _) := matches m key chunk patterns in
      let '(answers, m2) := run m1 rest in
      ((key, b) :: answers, m2)
  | Clear key :: rest => run (clear m key) rest
  end.

(** The answers a session saw. *)
Definition answers_of (key : K) (answers : list (K * bool)) : list bool :=
  (filter (fun a => a.1 = key) answers).*2.

(** The calls of one session. *)
Definition calls_of (key : K) (calls : list call) : list call :=
  filter (fun c => call_key c = key) calls.

(** The stripped text a session has accumulated since its buffer was last
    discarded. *)
Fixpoint accumulated (key : K) (acc : jsstring) (calls : list call) : jsstring :=
  match calls with
  | [] => acc
  | Matches key1 chunk _ :: rest =>
      accumulated key
        (if decide (key1 = key) then acc ++ stripAnsiSequences chunk else acc) rest
  | Clear key1 :: rest =>
      accumulated key (if decide (key1 = key) then [] else acc) rest
  end.

(** The same call, up to the [lastIndex] the patterns happen to carry. *)
Definition same_call (c d : call) : Prop :=
  match c, d with
  | Matches k1 c1 ps1, Matches k2 c2 ps2 =>
      k1 = k2 /\ c1 = c2 /\ Forall2 same_pattern ps1 ps2
  | Clear k1, Clear k2 => k1 = k2
  | _, _ => False
  end.

(** The text the patterns are tested against. *)
Definition combined_text (m : RollingPatternMatcher) (key : K)
    (chunk : jsstring) : jsstring :=
  trimToMax (default [] (buffers m !! key) ++ stripAnsiSequences chunk)
            (maxBufferChars m).




End Matcher.

Arguments RollingPatternMatcher K {_ _}.
Arguments call K Src : clear implicits.

End PatternMatcher.

(** ** [src/core/configParser.ts] *)

Module ConfigParser.

Set Warnings "-register-all".

(** The values a setting can hold ([unknown] in the source). *)
Inductive jsval : Type :=
| JsUndefined
| JsNull
| JsBoolean (b : bool)
| JsNumber (n : number)
| JsString (s : jsstring)
| JsArray (elements : list jsval)
| JsObject.

(** What a call can throw. *)
Inductive exn : Type :=
| SyntaxError
| TypeError.

(** The outcome of code that may throw. *)
Inductive completion (A : Type) : Type :=
| Normal (a : A)
| Throw (e : exn).

Arguments Normal {A} a.
Arguments Throw {A} e.

Definition bind {A B : Type} (c : completion A) (f : A -> completion B)
  : completion B :=
  match c with
  | Normal a => f a
  | Throw e => Throw e
  end.

(** [try { body } catch { handler }] *)
Definition try_catch {A : Type} (body : completion A) (handler : completion A)
  : completion A :=
  match body with
  | Normal a => Normal a
  | Throw _ => handler
  end.

Notation "x <- c ;; k" := (bind c (fun x => k))
  (at level 100, c at next level, right associativity, only parsing).

Definition DEFAULT_ERROR_PATTERNS : list jsstring :=
  [ str "\bError\b";
    str "\bTypeError\b";
    str "\bFATAL\b";
    str "\bException\b";
    str "\bTraceback\b" ].

Definition DEFAULT_IGNORE_EXIT_CODES : list jsval := [JsNumber (of_Z 130)].
Definition DEFAULT_DEBOUNCE_MS : number := of_Z 1200.

Definition normalizeStringArray (raw : jsval) (fallback : list jsstring)
  : list jsstring :=
  match raw with
  | JsArray elements =>
      omap (fun value => match value with JsString s => Some s | _ => None end)
           elements
  | _ => fallback
  end.

Definition normalizeUnknownArray (raw : jsval) (fallback : list jsval)
  : list jsval :=
  match raw with
  | JsArray elements => elements
  | _ => fallback
  end.

Section Patterns.

(** The engine's compiler: the compiled pattern, or the error it throws on a
    malformed pattern or flag string. *)
Context {Src : Type}.
Variable compile : jsstring -> jsstring -> completion Src.

(** [new RegExp(pattern, flags)] *)
Definition new_RegExp (pattern flags : jsstring) : completion (RegExp Src) :=
  src <- compile pattern flags ;;
  Normal {| source := src;
            global := bool_decide (103%N ∈ flags);
            sticky := bool_decide (121%N ∈ flags);
            lastIndex := 0 |}.

Record PatternParseResult : Type := mkParseResult {
  compiled : list (RegExp Src);
  invalid : list jsstring
}.

(** The loop of [parseErrorPatterns] over the candidates. *)
Fixpoint parse_candidates (candidates : list jsstring)
    (compiled : list (RegExp Src)) (invalid : list jsstring)
  : completion PatternParseResult :=
  match candidates with
  | [] => Normal {| compiled := compiled; invalid := invalid |}
  | candidate :: rest =>
      let pattern := trim candidate in
      if (length pattern =? 0)%nat then parse_candidates rest compiled invalid
      else
        state <-
          try_catch
            (re <- new_RegExp pattern (str "i") ;;
             Normal (compiled ++ [re], invalid))
            (Normal (compiled, invalid ++ [pattern])) ;;
        parse_candidates rest state.1 state.2
  end.

Definition parseErrorPatterns (raw : jsval) : completion PatternParseResult :=
  let candidates := normalizeStringArray raw DEFAULT_ERROR_PATTERNS in
  parse_candidates candidates [] [].

(** The candidates the loop tries to compile: trimmed, the empty ones left
    out. *)
Definition patterns_to_compile (raw : jsval) : list jsstring :=
  filter (fun p => p <> [])
    (trim <$> normalizeStringArray raw DEFAULT_ERROR_PATTERNS).

(** What [new RegExp(pattern, "i")] returns, if it returns. *)
Definition compiled_pattern (pattern : jsstring) : option (RegExp Src) :=
  match new_RegExp pattern (str "i") with
  | Normal re => Some re
  | Throw _ => None
  end.

Definition compiles (pattern : jsstring) : bool :=
  match compile pattern (str "i") with
  | Normal _ => true
  | Throw _ => false
  end.

End Patterns.

(** [unique.add(x)] on a [Set<number>], kept in insertion order. *)
Definition Set_add (unique : list number) (x : number) : list number :=
  if existsb (SameValueZero x) unique then unique else unique ++ [x].

(** The loop of [normalizeIgnoreExitCodes] over the values. *)
Fixpoint collect_exit_codes (values : list jsval) (unique : list number)
  : list number :=
  match values with
  | [] => unique
  | JsNumber value :: rest =>
      if negb (isFinite value) then collect_exit_codes rest unique
      else
        let normalized := Math_trunc value in
        if strict_eqb normalized (of_Z 0) then collect_exit_codes rest unique
        else collect_exit_codes rest (Set_add unique normalized)
  | _ :: rest => collect_exit_codes rest unique
  end.

Definition normalizeIgnoreExitCodes (raw : jsval) : list number :=
  let values := normalizeUnknownArray raw DEFAULT_IGNORE_EXIT_CODES in
  collect_exit_codes values [].

(** The integers the loop is to collect from the values: the truncations,
    other than zero, of the finite numbers among them. *)
Definition exit_code_of (values : list jsval) (z : Z) : Prop :=
  z <> 0 /\ exists q, JsNumber (Finite q) ∈ values /\ truncQ q = z.

Definition normalizeDebounceMs (raw : jsval) : number :=
  match raw with
  | JsNumber n =>
      if isFinite n then
        let clamped := Math_max (of_Z 0) (Math_min (of_Z 60000) n) in
        Math_trunc clamped
      else DEFAULT_DEBOUNCE_MS
  | _ => DEFAULT_DEBOUNCE_MS
  end.

End ConfigParser.

(** ** An engine for literal patterns

    The patterns of the tests and of the examples below are plain words.  On
    such a pattern the engine searches for the word, so this instance of the
    engine parameters is enough to run them: [literal_exec] finds the first
    occurrence at or after [start], [literal_compile] rejects a pattern with
    a bracket that is never closed, as the engine does. *)

Module LiteralEngine.

Import PatternMatcher.

Fixpoint starts_with (word text : jsstring) : bool :=
  match word, text with
  | [], _ => true
  | _ :: _, [] => false
  | a :: word1, b :: text1 => (a =? b)%N && starts_with word1 text1
  end.

(** The index of the first occurrence of [word] in [text], counted from
    [offset]. *)
Fixpoint find_from (word text : jsstring) (offset : nat) : option nat :=
  if starts_with word text then Some offset
  else
    match text with
    | [] => None
    | _ :: text1 => find_from word text1 (S offset)
    end.

Definition literal_exec (word : jsstring) (sticky : bool) (text : jsstring)
    (start : nat) : option nat :=
  if sticky then
    if starts_with word (drop start text) then Some (start + length word)%nat
    else None
  else
    (fun i => (i + length word)%nat) <$> find_from word (drop start text) start.

(** Whether every [[] of the pattern is followed by a []]. *)
Fixpoint brackets_closed (pattern : jsstring) : bool :=
  match pattern with
  | [] => true
  | c :: rest =>
      if (c =? 91)%N then bool_decide (93%N ∈ rest) && brackets_closed rest
      else brackets_closed rest
  end.

Definition literal_compile (pattern flags : jsstring)
  : ConfigParser.completion jsstring :=
  if brackets_closed pattern then ConfigParser.Normal pattern
  else ConfigParser.Throw ConfigParser.SyntaxError.

(** The pattern [/word/] with no flag. *)
Definition literal (word : jsstring) : RegExp jsstring :=
  {| source := word; global := false; sticky := false; lastIndex := 0 |}.

(** *** The sessions of the examples *)

(** Sessions are numbered. *)
Definition session : Type := positive.

Definition fresh : RollingPatternMatcher session := new_RollingPatternMatcher None.


(** The calls of the repository's isolation test. *)
Definition two_terminals : list (call session jsstring) :=
  let patterns := [literal (str "fatal")] in
  [ Matches 1%positive (str "fa") patterns;
    Matches 2%positive (str "all good") patterns;
    Matches 1%positive (str "tal") patterns;
    Matches 2%positive (str "still good") patterns ].

End LiteralEngine.

(** ** Runs of the debounce gate *)

Module DebounceRuns.

Import Debounce.

(** The times of the calls that a run of [canTrigger] calls allows. *)
Fixpoint allowed_times (g : DebounceGate) (times : list number) : list number :=
  match times with
  | [] => []
  | now :: rest =>
      let '(b, g1) := canTrigger g now in
      if b then now :: allowed_times g1 rest else allowed_times g1 rest
  end.

(** Each time of the list is not less than [w] after the one before it, the
    first one after [last]: [t - last < w] is false. *)
Fixpoint spaced (w last : number) (ts : list number) : Prop :=
  match ts with
  | [] => True
  | t :: rest => ltb (sub t last) w = false /\ spaced w t rest
  end.

(** The same with [t - last >= w]. *)
Fixpoint apart (w last : number) (ts : list number) : Prop :=
  match ts with
  | [] => True
  | t :: rest => geb (sub t last) w = true /\ apart w t rest
  end.

End DebounceRuns.

(** ** [src/extension.ts]: the event handlers of [FaaahController]

    The handlers are modelled on the state they read and write: the
    configuration snapshot, the matcher, the gate and the sound path.  A
    handler returns what it asks of its collaborators, in order, and the
    controller after the call.  [Date.now()] is the argument [now].  The text
    of a log line is represented by the reason it is built from. *)

Module Controller.

Import PatternMatcher ConfigParser.

Section Controller.

(** The [vscode.Terminal] objects. *)
Context {Terminal : Type} `{Countable Terminal}.
Context {Src : Type}.
Variable exec : Src -> bool -> jsstring -> nat -> option nat.

Record RuntimeConfig : Type := mkConfig {
  enabled : bool;
  customSoundPath : jsstring;
  outputScanningEnabled : bool;
  debounceMs : number;
  compiledPatterns : list (RegExp Src);
  invalidPatterns : list jsstring;
  ignoreExitCodeSet : list number
}.

Record FaaahController : Type := mkController {
  config : RuntimeConfig;
  matcher : RollingPatternMatcher Terminal;
  debounceGate : Debounce.DebounceGate;
  resolvedSoundPath : jsstring;
  soundPathReady : bool;
  lastPlaybackError : jsstring
}.

(** The argument of [triggerSound]: "Detected matching terminal output
    pattern." or "Detected non-zero terminal exit code: <exitCode>.". *)
Inductive reason : Type :=
| MatchingOutputPattern
| NonZeroExitCode (exitCode : number).

(** What a handler asks of the logger, of the player and of the window. *)
Inductive effect : Type :=
| LogInfo (r : reason)                   (* logger.info(reason) *)
| LogSuppressed (r : reason)             (* logger.info("Sound suppressed ...") *)
| PlaySound (soundPath : jsstring)       (* soundPlayer.play(resolvedSoundPath) *)
| ShowErrorMessage (text : jsstring)     (* vscode.window.showErrorMessage *)
| LogError (failure : jsstring).         (* logger.error("Failed to play sound.", error) *)

Definition set_debounceGate (c : FaaahController) (g : Debounce.DebounceGate)
  : FaaahController :=
  {| config := config c; matcher := matcher c; debounceGate := g;
     resolvedSoundPath := resolvedSoundPath c;
     soundPathReady := soundPathReady c;
     lastPlaybackError := lastPlaybackError c |}.

Definition set_matcher (c : FaaahController) (m : RollingPatternMatcher Terminal)
  : FaaahController :=
  {| config := config c; matcher := m; debounceGate := debounceGate c;
     resolvedSoundPath := resolvedSoundPath c;
     soundPathReady := soundPathReady c;
     lastPlaybackError := lastPlaybackError c |}.

(** The patterns of the snapshot after [matches] has run on them. *)
Definition set_compiledPatterns (c : FaaahController) (ps : list (RegExp Src))
  : FaaahController :=
  {| config :=
       {| enabled := enabled (config c);
          customSoundPath := customSoundPath (config c);
          outputScanningEnabled := outputScanningEnabled (config c);
          debounceMs := debounceMs (config c);
          compiledPatterns := ps;
          invalidPatterns := invalidPatterns (config c);
          ignoreExitCodeSet := ignoreExitCodeSet (config c) |};
     matcher := matcher c; debounceGate := debounceGate c;
     resolvedSoundPath := resolvedSoundPath c;
     soundPathReady := soundPathReady c;
     lastPlaybackError := lastPlaybackError c |}.

Definition set_lastPlaybackError (c : FaaahController) (failure : jsstring)
  : FaaahController :=
  {| config := config c; matcher := matcher c; debounceGate := debounceGate c;
     resolvedSoundPath := resolvedSoundPath c;
     soundPathReady := soundPathReady c;
     lastPlaybackError := failure |}.

(** [this.triggerSound(reason)] *)
Definition triggerSound (c : FaaahController) (now : number) (r : reason)
  : list effect * FaaahController :=
  if negb (soundPathReady c) then ([], c)
  else
    let '(allowed, gate1) := Debounce.canTrigger (debounceGate c) now in
    if negb allowed then ([LogSuppressed r], set_debounceGate c gate1)
    else
      ([LogInfo r; PlaySound (resolvedSoundPath c)], set_debounceGate c gate1).

(** [this.onTerminalData(event)] *)
Definition onTerminalData (c : FaaahController) (now : number)
    (terminal : Terminal) (data : jsstring) : list effect * FaaahController :=
  if negb (enabled (config c)) || negb (outputScanningEnabled (config c)) then
    ([], c)
  else if (length (compiledPatterns (config c)) =? 0)%nat then ([], c)
  else
    let '(matched, m1, patterns1) :=
      matches exec (matcher c) terminal data (compiledPatterns (config c)) in
    let c1 := set_compiledPatterns (set_matcher c m1) patterns1 in
    if negb matched then ([], c1)
    else
      triggerSound (set_matcher c1 (clear m1 terminal)) now MatchingOutputPattern.

(** [this.onTerminalExecutionEnd(event)], [exitCode] being a number or
    undefined. *)
Definition onTerminalExecutionEnd (c : FaaahController) (now : number)
    (exitCode : option number) : list effect * FaaahController :=
  if negb (enabled (config c)) then ([], c)
  else
    match exitCode with
    | None => ([], c)
    | Some code =>
        if strict_eqb code (of_Z 0)
           || existsb (SameValueZero code) (ignoreExitCodeSet (config c))
        then ([], c)
        else triggerSound c now (NonZeroExitCode code)
    end.

(** The listener of [onDidCloseTerminal]. *)
Definition onDidCloseTerminal (c : FaaahController) (terminal : Terminal)
  : FaaahController :=
  set_matcher c (clear (matcher c) terminal).

(** The end of [playSound], once [soundPlayer.play] has settled: [None] when
    it resolved, the failure text when it rejected. *)
Definition playSound_settled (c : FaaahController) (outcome : option jsstring)
  : list effect * FaaahController :=
  match outcome with
  | None => ([], set_lastPlaybackError c [])
  | Some failure =>
      if bool_decide (failure <> lastPlaybackError c) then
        ([ShowErrorMessage (str "Faaah Sound failed to play audio. " ++ failure);
          LogError failure],
         set_lastPlaybackError c failure)
      else ([LogError failure], c)
  end.

(** The text of the error message shown for a failure. *)
Definition failure_text (failure : jsstring) : jsstring :=
  str "Faaah Sound failed to play audio. " ++ failure.

(** [new Set(values)] on numbers, in insertion order. *)
Definition new_Set (values : list number) : list number :=
  foldl Set_add [] values.

(** The events the handlers are subscribed to, each with the time at which
    it is handled. *)
Inductive event : Type :=
| TerminalData (terminal : Terminal) (data : jsstring)
| TerminalExecutionEnd (exitCode : option number)
| TerminalClosed (terminal : Terminal)
| PlaybackSettled (outcome : option jsstring).

Definition handle (c : FaaahController) (now : number) (e : event)
  : list effect * FaaahController :=
  match e with
  | TerminalData terminal data => onTerminalData c now terminal data
  | TerminalExecutionEnd exitCode => onTerminalExecutionEnd c now exitCode
  | TerminalClosed terminal => ([], onDidCloseTerminal c terminal)
  | PlaybackSettled outcome => playSound_settled c outcome
  end.

Definition is_PlaySound (e : effect) : bool :=
  match e with PlaySound _ => true | _ => false end.

(** The times at which a sequence of events asks for the sound. *)
Fixpoint play_times (c : FaaahController) (events : list (number * event))
  : list number :=
  match events with
  | [] => []
  | (now, e) :: rest =>
      let '(effects, c1) := handle c now e in
      (if existsb is_PlaySound effects then [now] else []) ++ play_times c1 rest
  end.

(** The texts of the error messages a sequence of settled plays shows. *)
Fixpoint shown_failures (c : FaaahController) (outcomes : list (option jsstring))
  : list jsstring :=
  match outcomes with
  | [] => []
  | outcome :: rest =>
      let '(effects, c1) := playSound_settled c outcome in
      omap (fun e => match e with ShowErrorMessage t => Some t | _ => None end)
           effects
      ++ shown_failures c1 rest
  end.

End Controller.

Arguments RuntimeConfig Src : clear implicits.
Arguments FaaahController Terminal {_ _} Src.
Arguments event Terminal : clear implicits.

End Controller.

(** ** [src/soundPlayer.ts] *)

Module SoundPlayer.

(** [s.replace(r, replacement)] for a global [r] and a replacement without
    [$]: every match is replaced, the search resuming where the match ended.
    An empty match inserts the replacement and the search moves one unit
    on. *)
Fixpoint replace_matches (r : regex) (replacement : jsstring) (skip : nat)
    (s : jsstring) : jsstring :=
  match s with
  | [] =>
      match skip, match_length r [] with
      | O, Some _ => replacement
      | _, _ => []
      end
  | c :: rest =>
      match skip with
      | S n => replace_matches r replacement n rest
      | O =>
          match match_length r s with
          | Some (S n) => replacement ++ replace_matches r replacement n rest
          | Some O => replacement ++ c :: replace_matches r replacement 0 rest
          | None => c :: replace_matches r replacement 0 rest
          end
      end
  end.

Definition QUOTE : code_unit := 39%N.

(** [`'${value.replace(/'/g, "''")}'`] *)
Definition asPowerShellLiteral (value : jsstring) : jsstring :=
  QUOTE :: replace_matches (Chars (one QUOTE)) [QUOTE; QUOTE] 0 value ++ [QUOTE].

(** The characters PowerShell takes for a single quote: U+0027 and the
    typographic quotes U+2018, U+2019, U+201A and U+201B. *)
Definition SINGLE_QUOTES : list code_unit := [39; 8216; 8217; 8218; 8219]%N.

Definition is_single_quote (c : code_unit) : bool :=
  bool_decide (c ∈ SINGLE_QUOTES).

(** How PowerShell reads a single-quoted string, the opening quote read
    already: a single quote followed by a single quote stands for the second
    of them, a single quote followed by anything else ends the string.  The
    result is the string read and the rest of the input.  This is the rule of
    PowerShell's grammar, not code of the repository. *)
Fixpoint read_quoted (s : jsstring) : option (jsstring * jsstring) :=
  match s with
  | [] => None
  | c :: rest =>
      if is_single_quote c then
        match rest with
        | d :: rest1 =>
            if is_single_quote d then
              match read_quoted rest1 with
              | Some (value, after) => Some (d :: value, after)
              | None => None
              end
            else Some ([], rest)
        | [] => Some ([], [])
        end
      else
        match read_quoted rest with
        | Some (value, after) => Some (c :: value, after)
        | None => None
        end
  end.

Definition read_PowerShell_literal (s : jsstring) : option (jsstring * jsstring) :=
  match s with
  | c :: rest => if is_single_quote c then read_quoted rest else None
  | [] => None
  end.

(** The body of the literal: [value.replace(/'/g, "''")]. *)
Definition escaped (value : jsstring) : jsstring :=
  replace_matches (Chars (one QUOTE)) [QUOTE; QUOTE] 0 value.

(** A value whose only single quotes are U+0027. *)
Definition plain_quotes (value : jsstring) : Prop :=
  Forall (fun c => is_single_quote c = true -> c = QUOTE) value.

Record LinuxPlayer : Type := mkPlayer {
  command : jsstring;
  args : jsstring -> list jsstring
}.

Definition LINUX_WAV_PLAYERS : list LinuxPlayer :=
  [ {| command := str "paplay"; args := fun soundPath => [soundPath] |};
    {| command := str "aplay"; args := fun soundPath => [soundPath] |};
    {| command := str "ffplay";
       args := fun soundPath =>
         [str "-nodisp"; str "-autoexit"; str "-loglevel"; str "quiet"; soundPath] |};
    {| command := str "play"; args := fun soundPath => [soundPath] |};
    {| command := str "mpv";
       args := fun soundPath => [str "--no-video"; str "--really-quiet"; soundPath] |};
    {| command := str "mplayer"; args := fun soundPath => [soundPath] |};
    {| command := str "cvlc";
       args := fun soundPath =>
         [str "--intf"; str "dummy"; str "--play-and-exit"; soundPath] |} ].

Definition LINUX_MP3_PLAYERS : list LinuxPlayer :=
  [ {| command := str "ffplay";
       args := fun soundPath =>
         [str "-nodisp"; str "-autoexit"; str "-loglevel"; str "quiet"; soundPath] |};
    {| command := str "mpg123"; args := fun soundPath => [soundPath] |};
    {| command := str "mpg321"; args := fun soundPath => [soundPath] |};
    {| command := str "play"; args := fun soundPath => [soundPath] |};
    {| command := str "mpv";
       args := fun soundPath => [str "--no-video"; str "--really-quiet"; soundPath] |};
    {| command := str "mplayer"; args := fun soundPath => [soundPath] |};
    {| command := str "cvlc";
       args := fun soundPath =>
         [str "--intf"; str "dummy"; str "--play-and-exit"; soundPath] |} ].

Section Linux.

(** [isCommandAvailable(command)]: whether the lookup of the command
    succeeds, at the time of the call. *)
Variable isCommandAvailable : jsstring -> bool.

(** The loop of [resolveLinuxPlayer] over the candidates. *)
Fixpoint first_available (candidates : list LinuxPlayer) : option LinuxPlayer :=
  match candidates with
  | [] => None
  | candidate :: rest =>
      if isCommandAvailable (command candidate) then Some candidate
      else first_available rest
  end.

(** [this.resolveLinuxPlayer(extension)]: the player, or [None] for null,
    and the cache after the call. *)
Definition resolveLinuxPlayer (linuxPlayerCache : gmap jsstring (option LinuxPlayer))
    (extension : jsstring)
  : option LinuxPlayer * gmap jsstring (option LinuxPlayer) :=
  match linuxPlayerCache !! extension with
  | Some cached => (cached, linuxPlayerCache)
  | None =>
      let candidates :=
        if bool_decide (extension = str ".wav") then LINUX_WAV_PLAYERS
        else LINUX_MP3_PLAYERS in
      match first_available candidates with
      | Some candidate =>
          (Some candidate, <[extension := Some candidate]> linuxPlayerCache)
      | None => (None, <[extension := None]> linuxPlayerCache)
      end
  end.

End Linux.

(** A run of [resolveLinuxPlayer] calls on one cache, each call with the
    availability of the commands at its time. *)
Fixpoint resolve_all (cache : gmap jsstring (option LinuxPlayer))
    (calls : list ((jsstring -> bool) * jsstring)) : list (option LinuxPlayer) :=
  match calls with
  | [] => []
  | (available, extension) :: rest =>
      let '(player, cache1) := resolveLinuxPlayer available cache extension in
      player :: resolve_all cache1 rest
  end.

End SoundPlayer.

(** ** [src/soundPlayer.ts]: [play], and [validateSoundPath] of
    [src/extension.ts]

    [play] is modelled up to the process it starts: its result is the
    command and the arguments given to [runProcess], or the error thrown
    before any process is started.  The functions of the platform stay
    parameters. *)

Module Playback.

Import SoundPlayer.

(** [parts.join(separator)] *)
Fixpoint join (separator : jsstring) (parts : list jsstring) : jsstring :=
  match parts with
  | [] => []
  | [part] => part
  | part :: rest => part ++ separator ++ join separator rest
  end.

(** What a call of [play] comes to. *)
Inductive started : Type :=
| Spawn (command : jsstring) (args : list jsstring)
| Throws (message : jsstring).

Definition DOUBLE_QUOTE : jsstring := [34%N].

(** [extension || "<none>"] *)
Definition or_none (extension : jsstring) : jsstring :=
  match extension with
  | [] => str "<none>"
  | _ => extension
  end.

Definition SUPPORTED_SOUND_EXTENSIONS : list jsstring := [str ".wav"; str ".mp3"].

Section Platform.

(** [path.extname] *)
Variable extname : jsstring -> jsstring.
(** [String.prototype.toLowerCase] *)
Variable toLowerCase : jsstring -> jsstring.
(** [process.platform] *)
Variable platform : jsstring.
(** [pathToFileURL(path).toString()] *)
Variable pathToFileURL : jsstring -> jsstring.
(** [isCommandAvailable] *)
Variable isCommandAvailable : jsstring -> bool.
(** Whether [fs.access(path, R_OK)] resolves. *)
Variable readable : jsstring -> bool.

(** [validateSoundPath(soundPath)]: the error text, or [None] for
    undefined. *)
Definition validateSoundPath (soundPath : jsstring) : option jsstring :=
  let extension := toLowerCase (extname soundPath) in
  if negb (bool_decide (extension ∈ SUPPORTED_SOUND_EXTENSIONS)) then
    Some (str "Unsupported file type " ++ DOUBLE_QUOTE ++ or_none extension
            ++ DOUBLE_QUOTE ++ str ". Only .wav and .mp3 are supported.")
  else if negb (readable soundPath) then
    Some (str "Cannot read sound file at " ++ DOUBLE_QUOTE ++ soundPath
            ++ DOUBLE_QUOTE ++ str ".")
  else None.

Definition playOnLinux (cache : gmap jsstring (option LinuxPlayer))
    (soundPath extension : jsstring)
  : started * gmap jsstring (option LinuxPlayer) :=
  let '(player, cache1) := resolveLinuxPlayer isCommandAvailable cache extension in
  match player with
  | None =>
      (Throws (str "No supported Linux audio player found for " ++ extension
                 ++ str ". Install ffplay, mpg123, mpv, or another supported player."),
       cache1)
  | Some player => (Spawn (command player) (args player soundPath), cache1)
  end.

Definition wavScript (soundPath : jsstring) : jsstring :=
  join (str "; ")
    [ str "$player = New-Object System.Media.SoundPlayer";
      str "$player.SoundLocation = " ++ asPowerShellLiteral soundPath;
      str "$player.Load()";
      str "$player.PlaySync()" ].

Definition mediaPlayerScript (soundPath : jsstring) : jsstring :=
  join (str "; ")
    [ str "Add-Type -AssemblyName presentationCore";
      str "$uri = [System.Uri]::new("
        ++ asPowerShellLiteral (pathToFileURL soundPath) ++ str ")";
      str "$player = New-Object System.Windows.Media.MediaPlayer";
      str "$done = $false";
      str "$player.MediaEnded += { $script:done = $true }";
      str "$player.MediaFailed += { $script:done = $true }";
      str "$player.Open($uri)";
      str "$player.Play()";
      str "$timeout = [DateTime]::UtcNow.AddSeconds(20)";
      str "while (-not $script:done -and [DateTime]::UtcNow -lt $timeout) { Start-Sleep -Milliseconds 100 }";
      str "$player.Close()" ].

Definition playOnWindows (soundPath extension : jsstring) : started :=
  Spawn (str "powershell")
    [ str "-NoLogo"; str "-NoProfile"; str "-NonInteractive"; str "-Command";
      if bool_decide (extension = str ".wav") then wavScript soundPath
      else mediaPlayerScript soundPath ].

(** [player.play(soundPath)], and the cache of the player after the call. *)
Definition play (cache : gmap jsstring (option LinuxPlayer)) (soundPath : jsstring)
  : started * gmap jsstring (option LinuxPlayer) :=
  let extension := toLowerCase (extname soundPath) in
  if negb (bool_decide (extension = str ".wav"))
     && negb (bool_decide (extension = str ".mp3")) then
    (Throws (str "Unsupported sound format: " ++ or_none extension), cache)
  else if bool_decide (platform = str "darwin") then
    (Spawn (str "afplay") [soundPath], cache)
  else if bool_decide (platform = str "linux") then
    playOnLinux cache soundPath extension
  else if bool_decide (platform = str "win32") then
    (playOnWindows soundPath extension, cache)
  else (Throws (str "Unsupported platform: " ++ platform), cache).

End Platform.

(** The arguments a call of [play] gives to the process, none when it
    throws. *)
Definition spawned_args (s : started) : list jsstring :=
  match s with
  | Spawn _ args => args
  | Throws _ => []
  end.

End Playback.

(** ** [src/extension.ts]: [reloadConfiguration]

    [reloadConfiguration] is an async function with two [await]s, and its
    calls are not serialised: a call runs up to its first [await] and gives
    way, and goes on when the awaited validation has settled; handlers and
    other reloads can run in between.  It is modelled in these pieces: the
    part run by the call, and the part run when an [await] settles, which
    reads the controller as it is then.  The snapshot [readRuntimeConfig]
    returned and the path [resolveSoundPath] returned are arguments;
    [validateSoundPath] is taken on a file system that does not change. *)

Module Reload.

Import Controller Playback.

(** The warnings of a reload: a line of the log, or a message shown. *)
Inductive notice : Type :=
| LogWarn (text : jsstring)
| ShowWarningMessage (text : jsstring).

(** A call of [reloadConfiguration] waiting at an [await], with the local
    variables it goes on with. *)
Inductive pending : Type :=
| AwaitValidation (initialLoad : bool) (soundPath : jsstring)
    (* await validateSoundPath(this.resolvedSoundPath) *)
| AwaitFallback (validationError fallbackPath : jsstring).
    (* await validateSoundPath(fallbackPath) *)

Section Reload.

Context {Terminal : Type} `{Countable Terminal}.
Context {Src : Type}.

(** [validateSoundPath] *)
Variable validate : jsstring -> option jsstring.
(** [resolveBundledSoundPath(this.context)] *)
Variable bundled : jsstring.

Definition set_soundPathReady (c : FaaahController Terminal Src) (ready : bool)
  : FaaahController Terminal Src :=
  {| config := config c; matcher := matcher c; debounceGate := debounceGate c;
     resolvedSoundPath := resolvedSoundPath c; soundPathReady := ready;
     lastPlaybackError := lastPlaybackError c |}.

Definition set_resolvedSoundPath (c : FaaahController Terminal Src)
    (soundPath : jsstring) : FaaahController Terminal Src :=
  {| config := config c; matcher := matcher c; debounceGate := debounceGate c;
     resolvedSoundPath := soundPath; soundPathReady := soundPathReady c;
     lastPlaybackError := lastPlaybackError c |}.

(** The end of the function: the warning about the patterns of the current
    snapshot that did not compile. *)
Definition invalid_pattern_notices (currentConfig : RuntimeConfig Src) : list notice :=
  if (0 <? length (invalidPatterns currentConfig))%nat then
    let message :=
      str "Ignored invalid regex pattern(s): "
      ++ join (str ", ") (invalidPatterns currentConfig) in
    [LogWarn message; ShowWarningMessage (str "Faaah Sound: " ++ message)]
  else [].

(** [this.reloadConfiguration(initialLoad)], from the call to the first
    [await]: the snapshot, the window of the gate and the resolved path are
    stored; [soundPathReady] is not written yet. *)
Definition reloadConfiguration_call (c : FaaahController Terminal Src)
    (initialLoad : bool) (newConfig : RuntimeConfig Src) (resolved : jsstring)
  : FaaahController Terminal Src * pending :=
  ({| config := newConfig; matcher := matcher c;
      debounceGate := Debounce.updateDebounceMs (debounceGate c) (debounceMs newConfig);
      resolvedSoundPath := resolved; soundPathReady := soundPathReady c;
      lastPlaybackError := lastPlaybackError c |},
   AwaitValidation initialLoad resolved).

(** [reloadConfiguration] going on after an [await] has settled, up to the
    next [await] or to its end, on the controller as it is by then. *)
Definition reloadConfiguration_resume (c : FaaahController Terminal Src)
    (p : pending)
  : list notice * FaaahController Terminal Src * option pending :=
  match p with
  | AwaitValidation initialLoad soundPath =>
      match validate soundPath with
      | None =>
          (invalid_pattern_notices (config c), set_soundPathReady c true, None)
      | Some validationError =>
          if (0 <? length (trim (customSoundPath (config c))))%nat then
            ([], c, Some (AwaitFallback validationError bundled))
          else
            let message :=
              str "Configured sound file is invalid: " ++ validationError in
            (LogWarn message
               :: (if initialLoad then [ShowWarningMessage (str "Faaah Sound: " ++ message)]
                   else [])
               ++ invalid_pattern_notices (config c),
             set_soundPathReady c false, None)
      end
  | AwaitFallback validationError fallbackPath =>
      match validate fallbackPath with
      | None =>
          let message :=
            str "Custom sound is invalid (" ++ validationError
            ++ str "). Falling back to bundled faaah sound." in
          ([LogWarn message; ShowWarningMessage (str "Faaah Sound: " ++ message)]
             ++ invalid_pattern_notices (config c),
           set_soundPathReady (set_resolvedSoundPath c fallbackPath) true, None)
      | Some fallbackError =>
          let message :=
            str "Custom sound is invalid (" ++ validationError
            ++ str ") and bundled fallback is also invalid (" ++ fallbackError
            ++ str ")." in
          ([LogWarn message; ShowWarningMessage (str "Faaah Sound: " ++ message)]
             ++ invalid_pattern_notices (config c),
           set_soundPathReady c false, None)
      end
  end.

(** [reloadConfiguration] going on from an [await] to its end while nothing
    else runs on the controller. *)
Definition reloadConfiguration_finish (c : FaaahController Terminal Src)
    (p : pending) : list notice * FaaahController Terminal Src :=
  let first := reloadConfiguration_resume c p in
  match first.2 with
  | None => (first.1.1, first.1.2)
  | Some p1 =>
      let second := reloadConfiguration_resume first.1.2 p1 in
      (first.1.1 ++ second.1.1, second.1.2)
  end.

(** A reload that runs from its call to its end while nothing else runs on
    the controller. *)
Definition reload_alone (c : FaaahController Terminal Src)
    (initialLoad : bool) (newConfig : RuntimeConfig Src) (resolved : jsstring)
  : list notice * FaaahController Terminal Src :=
  let started := reloadConfiguration_call c initialLoad newConfig resolved in
  reloadConfiguration_finish started.1 started.2.

End Reload.

End Reload.

(** ** A controller for the examples *)

Module ExampleController.

Import PatternMatcher LiteralEngine Controller.

(** The snapshot with the default settings and the pattern [/fatal/]. *)
Definition example_config : RuntimeConfig jsstring :=
  {| enabled := true;
     customSoundPath := [];
     outputScanningEnabled := true;
     debounceMs := of_Z 1200;
     compiledPatterns := [literal (str "fatal")];
     invalidPatterns := [];
     ignoreExitCodeSet :=
       new_Set (ConfigParser.normalizeIgnoreExitCodes ConfigParser.JsUndefined) |}.

(** The same snapshot with a custom sound. *)
Definition custom_sound_config : RuntimeConfig jsstring :=
  {| enabled := true;
     customSoundPath := str "~/boom.ogg";
     outputScanningEnabled := true;
     debounceMs := of_Z 300;
     compiledPatterns := [literal (str "fatal")];
     invalidPatterns := [str "[oops"];
     ignoreExitCodeSet := [of_Z 130] |}.

(** A controller after its first reload, the bundled sound being readable. *)
Definition example_controller : FaaahController session jsstring :=
  {| config := example_config;
     matcher := fresh;
     debounceGate :=
       Debounce.updateDebounceMs (Debounce.new_DebounceGate (of_Z 1200)) (of_Z 1200);
     resolvedSoundPath := str "/ext/media/faaah.mp3";
     soundPathReady := true;
     lastPlaybackError := [] |}.

(** Output and exits of two terminals. *)
Definition example_events : list (number * event session) :=
  [ (of_Z 5000, TerminalData 1%positive (str "fa"));
    (of_Z 5100, TerminalData 2%positive (str "all good"));
    (of_Z 5200, TerminalData 1%positive (str "tal error"));
    (of_Z 5300, TerminalExecutionEnd (Some (of_Z 1)));
    (of_Z 5400, TerminalExecutionEnd (Some (of_Z 130)));
    (of_Z 6500, TerminalExecutionEnd (Some (of_Z 2)));
    (of_Z 6600, TerminalClosed 1%positive) ].

End ExampleController.

(** * Properties *)

(** ** Facts about numbers *)

Module NumberFacts.

Lemma Qltb_lt p q : Qltb p q = true <-> (p < q)%Q.
Proof.
  unfold Qltb. rewrite negb_true_iff.
  destruct (Qle_bool q p) eqn:E.
  - apply Qle_bool_iff in E. split; [discriminate | intros H; lra].
  - split; [intros _ | reflexivity].
    destruct (Qlt_le_dec p q) as [H | H]; [exact H |].
    apply Qle_bool_iff in H. congruence.
Qed.

Lemma Qltb_ge p q : Qltb p q = false <-> (q <= p)%Q.
Proof.
  unfold Qltb. rewrite negb_false_iff. apply Qle_bool_iff.
Qed.

(** [b <= a] excludes [a < b]. *)
Lemma leb_not_ltb a b : leb b a = true -> ltb a b = false.
Proof.
  destruct a, b; simpl; try congruence.
  intros Hle. apply Qle_bool_iff in Hle. now apply Qltb_ge.
Qed.

(** [a < b] excludes [b <= a]. *)
Lemma ltb_not_leb a b : ltb a b = true -> leb b a = false.
Proof.
  destruct (leb b a) eqn:E; [| reflexivity].
  apply leb_not_ltb in E. congruence.
Qed.

Lemma leb_trans a b c : leb a b = true -> leb b c = true -> leb a c = true.
Proof.
  destruct a, b, c; simpl; try congruence.
  rewrite !Qle_bool_iff. intros; lra.
Qed.

(** Clamping with [Math.max(0, _)] leaves a positive value as it is. *)
Lemma Math_max_0_positive w : is_positive w -> Math_max (of_Z 0) w = w.
Proof.
  unfold is_positive. destruct w; simpl; try congruence.
  intros ->. reflexivity.
Qed.

(** Clamping with [Math.max(0, _)] maps every negative value to zero. *)
Lemma Math_max_0_negative w : is_negative w -> Math_max (of_Z 0) w = of_Z 0.
Proof.
  unfold is_negative. destruct w; simpl; try congruence.
  intros Hneg. apply Qltb_lt in Hneg.
  destruct (Qltb (inject_Z 0) q) eqn:E; [| reflexivity].
  apply Qltb_lt in E. lra.
Qed.

(** Clamping with [Math.max(0, _)] maps zero to zero. *)
Lemma Math_max_0_zero w : is_zero w -> Math_max (of_Z 0) w = of_Z 0.
Proof.
  destruct w; simpl; try tauto.
  intros Hz.
  destruct (Qltb (inject_Z 0) q) eqn:E; [| reflexivity].
  apply Qltb_lt in E. unfold inject_Z in E. lra.
Qed.

(** Subtracting zero changes no comparison. *)
Lemma ltb_sub_0 t w : ltb (sub t (of_Z 0)) w = ltb t w.
Proof.
  destruct t, w; simpl; try reflexivity.
  destruct (Qltb q q0) eqn:E.
  - apply Qltb_lt in E. apply Qltb_lt. unfold inject_Z. lra.
  - apply Qltb_ge in E. apply Qltb_ge. unfold inject_Z. lra.
Qed.

(** Truncation of an integer value is that integer, whatever the fraction
    that represents it. *)
Lemma truncQ_integer q z : (q == inject_Z z)%Q -> truncQ q = z.
Proof.
  unfold Qeq, truncQ. simpl. rewrite Z.mul_1_r. intros ->.
  apply Z.quot_mul. discriminate.
Qed.



End NumberFacts.

Import NumberFacts.

(** ** The debounce gate *)

Module DebounceSpec.

Import Debounce.

(** A gate with a positive window takes the second branch of [canTrigger]. *)
Lemma canTrigger_positive g now :
  is_positive (debounceMs g) ->
  canTrigger g now =
    if ltb (sub now (lastTriggeredAt g)) (debounceMs g) then (false, g)
    else (true, set_lastTriggeredAt g now).
Proof.
  intros Hpos. unfold canTrigger.
  now rewrite (ltb_not_leb _ _ Hpos).
Qed.

(** An allowed call records its time and nothing else. *)
Lemma canTrigger_allowed g now :
  (canTrigger g now).1 = true ->
  (canTrigger g now).2 = set_lastTriggeredAt g now.
Proof.
  unfold canTrigger.
  destruct (leb _ _); [reflexivity |].
  destruct (ltb _ _); [discriminate | reflexivity].
Qed.

(** C1 fails when the call at [t1] is itself allowed: the window of 500 is
    then measured from 1500, and the call at 1600 is rejected although
    1600 - 1000 >= 500. *)
Lemma window_claim_counterexample :
  let g := new_DebounceGate (of_Z 500) in
  is_positive (debounceMs g) /\
  ltb (of_Z 1000) (of_Z 1500) = true /\
  ltb (of_Z 1500) (of_Z 1600) = true /\
  geb (sub (of_Z 1600) (of_Z 1000)) (debounceMs g) = true /\
  (canTrigger_all g [of_Z 1000; of_Z 1500; of_Z 1600]).1 = [true; true; false] /\
  ~ window_claim g (of_Z 1000) (of_Z 1500) (of_Z 1600).
Proof.
  repeat split; try reflexivity.
  unfold window_claim. intros Hclaim.
  destruct (Hclaim eq_refl) as [_ Hlate].
  specialize (Hlate eq_refl). vm_compute in Hlate. discriminate.
Qed.

(** C1 (amended): for a positive window and calls at [t0 < t1 < t2], the first
    of them allowed: a call at [t1] within the window is rejected and leaves
    the gate as it was, and the call at [t2] is then allowed as soon as
    [t2 - t0] reaches the window; a call at [t1] outside the window is
    allowed, and the call at [t2] is then measured from [t1]. *)
Theorem canTrigger_window (g : DebounceGate) (t0 t1 t2 : number) :
  is_positive (debounceMs g) ->
  ltb t0 t1 = true -> ltb t1 t2 = true ->
  (canTrigger g t0).1 = true ->
  let w := debounceMs g in
  let g0 := (canTrigger g t0).2 in
  (ltb (sub t1 t0) w = true ->
     canTrigger g0 t1 = (false, g0) /\
     (geb (sub t2 t0) w = true -> (canTrigger (canTrigger g0 t1).2 t2).1 = true)) /\
  (geb (sub t1 t0) w = true ->
     canTrigger g0 t1 = (true, set_lastTriggeredAt g0 t1) /\
     (canTrigger (canTrigger g0 t1).2 t2).1 = negb (ltb (sub t2 t1) w)).
Proof.
  intros Hpos _ _ Hfirst w g0.
  assert (Hg0 : g0 = set_lastTriggeredAt g t0)
    by (subst g0; now apply canTrigger_allowed).
  assert (Hpos0 : is_positive (debounceMs g0)) by (rewrite Hg0; exact Hpos).
  assert (Hstep : canTrigger g0 t1 =
                  if ltb (sub t1 t0) w then (false, g0)
                  else (true, set_lastTriggeredAt g0 t1)).
  { rewrite (canTrigger_positive g0 t1 Hpos0). now rewrite Hg0. }
  split.
  - intros Hin. rewrite Hstep, Hin. split; [reflexivity |].
    intros Hout. simpl. rewrite (canTrigger_positive g0 t2 Hpos0).
    rewrite Hg0. simpl. fold w.
    now rewrite (leb_not_ltb _ _ Hout).
  - intros Hout. rewrite Hstep, (leb_not_ltb _ _ Hout). split; [reflexivity |].
    simpl. rewrite canTrigger_positive by (rewrite Hg0; exact Hpos).
    rewrite Hg0. simpl. fold w.
    now destruct (ltb (sub t2 t1) w).
Qed.

(** The test of the repository: a window of 500, calls at 1000, 1200, 1601. *)
Lemma canTrigger_window_witness :
  let g := new_DebounceGate (of_Z 500) in
  let g0 := (canTrigger g (of_Z 1000)).2 in
  canTrigger g0 (of_Z 1200) = (false, g0) /\
  (canTrigger (canTrigger g0 (of_Z 1200)).2 (of_Z 1601)).1 = true.
Proof.
  intros g g0.
  pose proof (canTrigger_window g (of_Z 1000) (of_Z 1200) (of_Z 1601)
                eq_refl eq_refl eq_refl eq_refl) as [Hin _].
  destruct (Hin eq_refl) as [Hreject Hallow].
  split; [exact Hreject | exact (Hallow eq_refl)].
Defined.

(** A gate whose window is zero takes the first branch of [canTrigger]. *)
Lemma canTrigger_zero g now :
  is_zero (debounceMs g) ->
  canTrigger g now = (true, set_lastTriggeredAt g now).
Proof.
  intros Hzero. unfold canTrigger, is_zero in *.
  destruct (debounceMs g) as [| | q |]; try contradiction.
  simpl. replace (Qle_bool q (inject_Z 0)) with true; [reflexivity |].
  symmetry. apply Qle_bool_iff. unfold inject_Z. lra.
Qed.

(** Configuring a window of zero stores a window of zero. *)
Lemma zero_window_configured g w :
  is_zero w ->
  is_zero (debounceMs (new_DebounceGate w)) /\
  is_zero (debounceMs (updateDebounceMs g w)).
Proof.
  intros Hzero. cbn [new_DebounceGate updateDebounceMs debounceMs].
  rewrite (Math_max_0_zero w Hzero). split; reflexivity.
Qed.

(** C4: with a window of zero every call is allowed, whatever the times
    passed, and each call records its time; so after the window is raised to
    a positive value, the next call is measured from the most recent call. *)
Theorem canTrigger_zero_window (g : DebounceGate) :
  is_zero (debounceMs g) ->
  (forall now, canTrigger g now = (true, set_lastTriggeredAt g now)) /\
  (forall times,
     (canTrigger_all g times).1 = replicate (length times) true) /\
  (forall now w t,
     is_positive w ->
     let g1 := updateDebounceMs (canTrigger g now).2 w in
     canTrigger g1 t =
       if ltb (sub t now) w then (false, g1)
       else (true, set_lastTriggeredAt g1 t)).
Proof.
  intros Hzero. split; [| split].
  - intros now. now apply canTrigger_zero.
  - intros times. revert g Hzero.
    induction times as [| now rest IH]; intros g Hzero.
    + reflexivity.
    + cbn [canTrigger_all]. rewrite (canTrigger_zero g now Hzero).
      specialize (IH (set_lastTriggeredAt g now) Hzero).
      destruct (canTrigger_all (set_lastTriggeredAt g now) rest) as [bs g2].
      simpl in IH. now subst bs.
  - intros now w t Hpos g1.
    assert (Hw : debounceMs g1 = w).
    { subst g1. simpl. now apply Math_max_0_positive. }
    rewrite canTrigger_positive by (rewrite Hw; exact Hpos).
    rewrite Hw. subst g1. now rewrite (canTrigger_zero g now Hzero).
Qed.

(** The second test of the repository: a window of zero, calls at 1, 1, 2. *)
Lemma canTrigger_zero_window_witness :
  (canTrigger_all (new_DebounceGate (of_Z 0)) [of_Z 1; of_Z 1; of_Z 2]).1
  = [true; true; true].
Proof.
  pose proof (canTrigger_zero_window (new_DebounceGate (of_Z 0))) as Hall.
  assert (Hzero : is_zero (debounceMs (new_DebounceGate (of_Z 0))))
    by reflexivity.
  destruct (Hall Hzero) as [_ [Hruns _]].
  exact (Hruns [of_Z 1; of_Z 1; of_Z 2]).
Defined.

(** C9, as the specification words it, fails at +Infinity and at NaN: the
    value is stored as it is, not as zero.  With +Infinity the gate of the
    example rejects the call instead of allowing every call. *)
Lemma non_finite_window_counterexample :
  debounceMs (new_DebounceGate PosInf) = PosInf /\
  debounceMs (updateDebounceMs (new_DebounceGate (of_Z 500)) PosInf) = PosInf /\
  canTrigger (new_DebounceGate PosInf) (of_Z 1000)
    = (false, new_DebounceGate PosInf) /\
  debounceMs (new_DebounceGate NaN) = NaN /\
  is_zero (debounceMs (new_DebounceGate NaN)) = False.
Proof.
  repeat split.
Qed.

(** C9 (amended): a negative window, -Infinity included, is stored as zero
    by the constructor and by [updateDebounceMs], and the gate then allows
    every call.  NaN is stored as NaN, and the gate allows every call all the
    same.  +Infinity is stored as +Infinity, and the gate rejects every call
    whose distance to the last trigger is not +Infinity. *)
Theorem window_clamped (g : DebounceGate) (w now : number) :
  (is_negative w ->
     debounceMs (new_DebounceGate w) = of_Z 0 /\
     debounceMs (updateDebounceMs g w) = of_Z 0 /\
     canTrigger (new_DebounceGate w) now
       = (true, set_lastTriggeredAt (new_DebounceGate w) now) /\
     canTrigger (updateDebounceMs g w) now
       = (true, set_lastTriggeredAt (updateDebounceMs g w) now)) /\
  (debounceMs (updateDebounceMs g NaN) = NaN /\
   canTrigger (updateDebounceMs g NaN) now
     = (true, set_lastTriggeredAt (updateDebounceMs g NaN) now)) /\
  (debounceMs (updateDebounceMs g PosInf) = PosInf /\
   (ltb (sub now (lastTriggeredAt g)) PosInf = true ->
    canTrigger (updateDebounceMs g PosInf) now = (false, updateDebounceMs g PosInf))).
Proof.
  split; [| split].
  - intros Hneg.
    assert (Hnew : debounceMs (new_DebounceGate w) = of_Z 0)
      by (simpl; now apply Math_max_0_negative).
    assert (Hupd : debounceMs (updateDebounceMs g w) = of_Z 0)
      by (simpl; now apply Math_max_0_negative).
    repeat split; try assumption.
    + apply canTrigger_zero. now rewrite Hnew.
    + apply canTrigger_zero. now rewrite Hupd.
  - split; [reflexivity |].
    unfold canTrigger. simpl.
    now destruct (sub now (lastTriggeredAt g)).
  - split; [reflexivity |].
    intros Hfar. unfold canTrigger. simpl. now rewrite Hfar.
Qed.

(** A window of -5, at construction and at update. *)
Lemma window_clamped_witness :
  debounceMs (new_DebounceGate (of_Z (-5))) = of_Z 0 /\
  canTrigger (updateDebounceMs (new_DebounceGate (of_Z 500)) NegInf) (of_Z 7)
    = (true, set_lastTriggeredAt
               (updateDebounceMs (new_DebounceGate (of_Z 500)) NegInf) (of_Z 7)).
Proof.
  split.
  - exact (proj1 (proj1 (window_clamped (new_DebounceGate (of_Z 500))
                           (of_Z (-5)) (of_Z 7)) eq_refl)).
  - exact (proj2 (proj2 (proj2 (proj1 (window_clamped
             (new_DebounceGate (of_Z 500)) NegInf (of_Z 7)) eq_refl)))).
Defined.

(** C10: a new gate holds 0 as the time of its last trigger, so with a
    positive window its first call is rejected at a time in [0, window) and
    allowed at a time at or after the window. *)
Theorem fresh_gate_measures_from_zero (w t : number) :
  is_positive w ->
  let g := new_DebounceGate w in
  lastTriggeredAt g = of_Z 0 /\
  (leb (of_Z 0) t = true -> ltb t w = true -> canTrigger g t = (false, g)) /\
  (geb t w = true -> canTrigger g t = (true, set_lastTriggeredAt g t)).
Proof.
  intros Hpos g.
  assert (Hw : debounceMs g = w) by (simpl; now apply Math_max_0_positive).
  assert (Hstep : canTrigger g t =
                  if ltb t w then (false, g) else (true, set_lastTriggeredAt g t)).
  { rewrite canTrigger_positive by (rewrite Hw; exact Hpos).
    rewrite Hw. simpl. now rewrite ltb_sub_0. }
  split; [reflexivity | split].
  - intros _ Hin. now rewrite Hstep, Hin.
  - intros Hout. now rewrite Hstep, (leb_not_ltb _ _ Hout).
Qed.

(** A new gate with a window of 1200: rejected at 700, allowed at 1200. *)
Lemma fresh_gate_measures_from_zero_witness :
  let g := new_DebounceGate (of_Z 1200) in
  canTrigger g (of_Z 700) = (false, g) /\
  canTrigger g (of_Z 1200) = (true, set_lastTriggeredAt g (of_Z 1200)).
Proof.
  intros g. split.
  - exact (proj1 (proj2 (fresh_gate_measures_from_zero (of_Z 1200) (of_Z 700)
                           eq_refl)) eq_refl eq_refl).
  - exact (proj2 (proj2 (fresh_gate_measures_from_zero (of_Z 1200) (of_Z 1200)
                           eq_refl)) eq_refl).
Defined.

End DebounceSpec.

(** ** Stripping escape sequences *)

Module AnsiSpec.

(** Closes a goal [x ∉ l] for a list [l] of literals that differ from [x]. *)
Ltac not_in_literals :=
  let Hin := fresh "Hin" in
  vm_compute; intros Hin;
  repeat (apply elem_of_cons in Hin as [Hin | Hin]; [discriminate |]);
  now apply elem_of_nil in Hin.

(** No match of the pattern starts at a unit other than ESC. *)
Lemma no_match_without_ESC c s :
  c <> ESC -> match_length ANSI_SEQUENCE_PATTERN (c :: s) = None.
Proof.
  intros Hc. unfold match_length, ANSI_SEQUENCE_PATTERN. cbn [match_at].
  unfold one at 1. destruct (N.eqb_spec c ESC); [contradiction | reflexivity].
Qed.

(** A text without ESC is left as it is. *)
Lemma strip_plain s : ESC ∉ s -> stripAnsiSequences s = s.
Proof.
  unfold stripAnsiSequences, replace_all_with_empty.
  induction s as [| c s IH]; intros Hs; [reflexivity |].
  apply not_elem_of_cons in Hs as [Hc Hs].
  cbn [delete_matches]. rewrite no_match_without_ESC by congruence.
  now rewrite IH.
Qed.

(** Plain text before the first ESC is kept, and the search goes on after it. *)
Lemma strip_plain_prefix pre s :
  ESC ∉ pre ->
  stripAnsiSequences (pre ++ s) = pre ++ stripAnsiSequences s.
Proof.
  unfold stripAnsiSequences, replace_all_with_empty.
  induction pre as [| c pre IH]; intros Hpre; [reflexivity |].
  apply not_elem_of_cons in Hpre as [Hc Hpre].
  cbn [app delete_matches]. rewrite no_match_without_ESC by congruence.
  now rewrite IH.
Qed.

(** The units of a match are deleted, and the search resumes after them. *)
Lemma delete_matches_skip r xs s :
  delete_matches r (length xs) (xs ++ s) = delete_matches r 0 s.
Proof.
  induction xs as [| x xs IH]; [reflexivity | exact IH].
Qed.

(** A match at the start of the text is deleted. *)
Lemma delete_matches_match r xs s :
  xs <> [] ->
  match_at r (xs ++ s) Some = Some s ->
  delete_matches r 0 (xs ++ s) = delete_matches r 0 s.
Proof.
  intros Hxs Hm. destruct xs as [| x xs]; [congruence |].
  change ((x :: xs) ++ s) with (x :: (xs ++ s)) in *.
  cbn [delete_matches]. unfold match_length. rewrite Hm.
  replace (length (x :: xs ++ s) - length s)%nat with (S (length xs))
    by (cbn [length]; rewrite length_app; lia).
  apply delete_matches_skip.
Qed.

(** A greedy star takes every unit of its class when the rest then matches. *)
Lemma star_at_all p xs s k r :
  Forall (fun x => p x = true) xs ->
  star_at p s k = Some r ->
  star_at p (xs ++ s) k = Some r.
Proof.
  intros Hxs Hk. induction Hxs as [| x xs Hx _ IH]; [exact Hk |].
  cbn [app star_at]. now rewrite Hx, IH.
Qed.

(** A star takes nothing at a unit outside its class. *)
Lemma star_at_stop p c s k : p c = false -> star_at p (c :: s) k = k (c :: s).
Proof.
  intros Hc. cbn [star_at]. now rewrite Hc.
Qed.

Lemma range_true lo hi x : range lo hi x = true <-> (lo <= x <= hi)%N.
Proof.
  unfold range. rewrite andb_true_iff, !N.leb_le. tauto.
Qed.

Lemma range_false lo hi x : (x < lo \/ hi < x)%N -> range lo hi x = false.
Proof.
  intros Hout. destruct (range lo hi x) eqn:E; [| reflexivity].
  apply range_true in E. lia.
Qed.

(** The pattern matches a whole CSI sequence. *)
Lemma match_csi params inter final post :
  Forall (fun x => range 48 63 x = true) params ->
  Forall (fun x => range 32 47 x = true) inter ->
  range 64 126 final = true ->
  match_at ANSI_SEQUENCE_PATTERN (csi params inter final ++ post) Some = Some post.
Proof.
  intros Hparams Hinter Hfinal.
  assert (Hf1 : range 48 63 final = false)
    by (apply range_true in Hfinal; apply range_false; lia).
  assert (Hf2 : range 32 47 final = false)
    by (apply range_true in Hfinal; apply range_false; lia).
  unfold ANSI_SEQUENCE_PATTERN, csi.
  rewrite <- !app_comm_cons, <- !app_assoc. cbn [match_at app].
  change (one ESC ESC) with true. change (either (range 64 90) (range 92 95) 91%N) with false.
  change (one 91 91%N) with true. cbv iota.
  set (k2 := fun rest : jsstring => match rest with
                                    | c :: rest0 => if range 64 126 c then Some rest0 else None
                                    | [] => None
                                    end).
  set (k1 := fun rest : jsstring => star_at (range 32 47) rest k2).
  assert (H2 : star_at (range 32 47) (inter ++ final :: post) k2 = Some post).
  { apply star_at_all; [exact Hinter |].
    rewrite star_at_stop by exact Hf2. unfold k2. now rewrite Hfinal. }
  assert (H1 : star_at (range 48 63) (inter ++ final :: post) k1 = Some post).
  { destruct Hinter as [| x inter Hx Hinter'].
    - cbn [app]. rewrite star_at_stop by exact Hf1. exact H2.
    - cbn [app]. rewrite star_at_stop; [exact H2 |].
      apply range_true in Hx. apply range_false. lia. }
  now rewrite (star_at_all _ params _ k1 post Hparams H1).
Qed.

(** C8, as the specification words it, fails: deleting the sequence [ESC A]
    joins the ESC before it to the [A] after it, and a second pass deletes
    the sequence so formed. *)
Lemma strip_idempotent_counterexample :
  let s := [ESC; ESC; 65; 65]%N in
  stripAnsiSequences s = [ESC; 65%N] /\
  stripAnsiSequences (stripAnsiSequences s) = [] /\
  stripAnsiSequences (stripAnsiSequences s) <> stripAnsiSequences s.
Proof.
  repeat split. discriminate.
Qed.

(** C8 (amended): stripping twice is stripping once for every input whose
    stripped text holds no ESC, in particular for every input without ESC,
    which is left as it is; and a CSI sequence is removed while the plain text
    before it is kept exactly and the text after it is stripped in turn, as in
    the colour codes of the repository's test. *)
Theorem strip_idempotent_without_ESC (s pre params inter post : jsstring)
    (final : code_unit) :
  (ESC ∉ stripAnsiSequences s ->
     stripAnsiSequences (stripAnsiSequences s) = stripAnsiSequences s) /\
  (ESC ∉ s -> stripAnsiSequences s = s) /\
  (ESC ∉ pre ->
   Forall (fun x => range 48 63 x = true) params ->
   Forall (fun x => range 32 47 x = true) inter ->
   range 64 126 final = true ->
     stripAnsiSequences (pre ++ csi params inter final ++ post)
     = pre ++ stripAnsiSequences post) /\
  stripAnsiSequences
    (csi (str "31") [] 109 ++ str "Error:" ++ csi (str "0") [] 109
       ++ str " command failed")
  = str "Error: command failed".
Proof.
  split; [| split; [| split]].
  - apply strip_plain.
  - apply strip_plain.
  - intros Hpre Hparams Hinter Hfinal.
    rewrite strip_plain_prefix by exact Hpre. f_equal.
    unfold stripAnsiSequences, replace_all_with_empty.
    apply delete_matches_match; [discriminate |].
    now apply match_csi.
  - reflexivity.
Qed.

(** An input whose stripped text has no ESC, and a colour code in plain text. *)
Lemma strip_idempotent_without_ESC_witness :
  let s := csi (str "1;31") [] 109 ++ str "FATAL" in
  stripAnsiSequences (stripAnsiSequences s) = stripAnsiSequences s /\
  stripAnsiSequences (str "npm " ++ csi (str "31") [] 109 ++ str "ERR!")
  = str "npm " ++ stripAnsiSequences (str "ERR!").
Proof.
  intros s. split.
  - apply (proj1 (strip_idempotent_without_ESC s [] [] [] [] 0%N)).
    not_in_literals.
  - apply (proj1 (proj2 (proj2 (strip_idempotent_without_ESC
             [] (str "npm ") (str "31") [] (str "ERR!") 109%N)))).
    + not_in_literals.
    + repeat constructor.
    + constructor.
    + reflexivity.
Defined.

End AnsiSpec.

(** ** The rolling pattern matcher *)

Module MatcherSpec.

Import PatternMatcher.

Section Props.

Context {K : Type} `{Countable K}.
Context {Src : Type}.
Variable exec : Src -> bool -> jsstring -> nat -> option nat.



(** *** Testing patterns *)

(** The answer of [testRegExp] is the engine's search from index 0, whatever
    [lastIndex] the pattern carries. *)
Lemma testRegExp_answer (p : RegExp Src) text :
  (testRegExp exec p text).1 = bool_decide (is_Some (exec (source p) (sticky p) text 0)).
Proof.
  unfold testRegExp, RegExp_test.
  destruct (global p || sticky p) eqn:E.
  - cbn [global sticky source lastIndex set_lastIndex]. rewrite E.
    change (length text <? 0)%nat with false.
    destruct (exec (source p) (sticky p) text 0) eqn:Ex; reflexivity.
  - rewrite E. change (length text <? 0)%nat with false.
    destruct (exec (source p) (sticky p) text 0) eqn:Ex; reflexivity.
Qed.

(** [testRegExp] changes at most the [lastIndex] of the pattern. *)
Lemma testRegExp_same (p : RegExp Src) text :
  same_pattern p (testRegExp exec p text).2.
Proof.
  unfold testRegExp, RegExp_test, same_pattern.
  destruct (global p || sticky p) eqn:E;
    cbn [global sticky source lastIndex set_lastIndex]; rewrite ?E;
    destruct (_ <? _)%nat; try destruct (exec _ _ _ _); auto.
Qed.

Lemma pattern_matches_same (p q : RegExp Src) text :
  same_pattern p q -> pattern_matches exec p text = pattern_matches exec q text.
Proof.
  intros (Hs & _ & Hy). unfold pattern_matches.
  rewrite !testRegExp_answer. now rewrite Hs, Hy.
Qed.

(** The loop answers whether some pattern matches. *)
Lemma test_patterns_answer (ps : list (RegExp Src)) text :
  (test_patterns exec ps text).1 = existsb (fun p => pattern_matches exec p text) ps.
Proof.
  induction ps as [| p ps IH]; [reflexivity |].
  cbn [test_patterns existsb]. unfold pattern_matches at 1.
  destruct (testRegExp exec p text) as [found p1]. cbn [fst].
  destruct found; [reflexivity |].
  destruct (test_patterns exec ps text) as [b ps1]. exact IH.
Qed.


Lemma existsb_same (ps qs : list (RegExp Src)) text :
  Forall2 same_pattern ps qs ->
  existsb (fun p => pattern_matches exec p text) ps
  = existsb (fun p => pattern_matches exec p text) qs.
Proof.
  induction 1 as [| p q ps qs Hpq _ IH]; [reflexivity |].
  cbn [existsb]. now rewrite (pattern_matches_same p q text Hpq), IH.
Qed.

(** *** One call of [matches] *)

Lemma matches_answer (m : RollingPatternMatcher K) (key : K) chunk
    (ps : list (RegExp Src)) :
  (matches exec m key chunk ps).1.1
  = existsb (fun p => pattern_matches exec p (combined_text m key chunk)) ps.
Proof.
  unfold matches. fold (combined_text m key chunk).
  rewrite <- test_patterns_answer.
  now destruct (test_patterns exec ps (combined_text m key chunk)).
Qed.

Lemma matches_matcher (m : RollingPatternMatcher K) (key : K) chunk
    (ps : list (RegExp Src)) :
  (matches exec m key chunk ps).1.2
  = {| buffers := <[key := combined_text m key chunk]> (buffers m);
       maxBufferChars := maxBufferChars m |}.
Proof.
  unfold matches. fold (combined_text m key chunk).
  now destruct (test_patterns exec ps (combined_text m key chunk)).
Qed.


(** *** Trimming *)

Lemma of_nat_leb (a b : nat) : (a <= b)%nat -> leb (of_nat a) (of_nat b) = true.
Proof.
  intros Hab. cbn. apply Qle_bool_iff. rewrite <- Zle_Qle. lia.
Qed.

(** A text that fits is kept whole. *)
Lemma trimToMax_fits value maxChars :
  leb (of_nat (length value)) maxChars = true -> trimToMax value maxChars = value.
Proof.
  intros Hfits. unfold trimToMax. now rewrite Hfits.
Qed.





(** *** C2 *)




(** *** C3 *)





(** The last [n] units of a text with more appended are the last [n] units
    of what was kept with the same appended. *)
Lemma keep_last_app (n : nat) (text more : jsstring) :
  let kept := drop (length text - n) text in
  drop (length (kept ++ more) - n) (kept ++ more)
  = drop (length (text ++ more) - n) (text ++ more).
Proof.
  intros kept. destruct (decide (length text <= n)%nat) as [Hshort | Hlong].
  - subst kept. now replace (length text - n)%nat with 0%nat by lia.
  - assert (Hkept : length kept = n) by (subst kept; rewrite length_drop; lia).
    rewrite !length_app, Hkept.
    destruct (decide (length more <= n)%nat) as [Hfew | Hmany].
    + rewrite !drop_app_le by lia. subst kept. rewrite drop_drop.
      f_equal. f_equal. lia.
    + rewrite !drop_app_ge by lia. f_equal. lia.
Qed.




(** *** C5 *)

(** A call of one session leaves the buffers of the others as they are. *)
Lemma matches_other_key (m : RollingPatternMatcher K) (key key1 : K) chunk
    (ps : list (RegExp Src)) :
  key1 <> key ->
  buffers (matches exec m key1 chunk ps).1.2 !! key = buffers m !! key.
Proof.
  intros Hne. rewrite matches_matcher. cbn [buffers].
  now rewrite lookup_insert_ne.
Qed.

(** The answer and the new buffer of a call depend on the matcher through
    the buffer of the session and the maximum only, and on the patterns up to
    their [lastIndex]. *)
Lemma matches_local (m m' : RollingPatternMatcher K) (key : K) chunk
    (ps ps' : list (RegExp Src)) :
  maxBufferChars m = maxBufferChars m' ->
  buffers m !! key = buffers m' !! key ->
  Forall2 same_pattern ps ps' ->
  (matches exec m key chunk ps).1.1 = (matches exec m' key chunk ps').1.1 /\
  buffers (matches exec m key chunk ps).1.2 !! key
  = buffers (matches exec m' key chunk ps').1.2 !! key.
Proof.
  intros Hmax Hbuf Hps.
  assert (Hc : combined_text m key chunk = combined_text m' key chunk)
    by (unfold combined_text; now rewrite Hmax, Hbuf).
  rewrite !matches_answer, !matches_matcher. cbn [buffers].
  rewrite !lookup_insert_eq, Hc. split; [| reflexivity].
  now apply existsb_same.
Qed.

Lemma matches_maxBufferChars (m : RollingPatternMatcher K) (key : K) chunk
    (ps : list (RegExp Src)) :
  maxBufferChars (matches exec m key chunk ps).1.2 = maxBufferChars m.
Proof.
  now rewrite matches_matcher.
Qed.

(** C5: the answers a session sees in any interleaving of calls, on any
    number of sessions, are the answers its own calls give when they are run
    alone, on a matcher with the same maximum and the same buffer for that
    session, and whatever [lastIndex] the shared patterns carry into each
    call. *)
Theorem sessions_isolated (m m' : RollingPatternMatcher K) (key : K)
    (calls alone : list (call K Src)) :
  maxBufferChars m = maxBufferChars m' ->
  buffers m !! key = buffers m' !! key ->
  Forall2 same_call (calls_of key calls) alone ->
  answers_of key (run exec m calls).1 = (run exec m' alone).1.*2.
Proof.
  revert m m' alone.
  induction calls as [| c calls IH]; intros m m' alone Hmax Hbuf Hsame.
  - inversion Hsame. reflexivity.
  - unfold calls_of in Hsame. destruct (decide (call_key c = key)) as [Hkey | Hkey].
    + rewrite filter_cons_True in Hsame by exact Hkey.
      inversion Hsame as [| c0 d l alone' Hcd Hrest]; subst.
      destruct c as [key1 chunk ps | key1], d as [key2 chunk2 ps2 | key2];
        cbn [same_call call_key] in *; try contradiction.
      * destruct Hcd as (<- & <- & Hps).
        destruct (matches_local m m' key1 chunk ps ps2 Hmax Hbuf Hps) as [Hb Hnext].
        pose proof (matches_maxBufferChars m key1 chunk ps) as Hmax1.
        pose proof (matches_maxBufferChars m' key1 chunk ps2) as Hmax2.
        cbn [run].
        destruct (matches exec m key1 chunk ps) as [[b m1] ps1].
        destruct (matches exec m' key1 chunk ps2) as [[b' m1'] ps1'].
        cbn [fst snd] in *. subst b'.
        specialize (IH m1 m1' alone').
        destruct (run exec m1 calls) as [answers m2].
        destruct (run exec m1' alone') as [answers' m2'].
        cbn [fst] in *. unfold answers_of in *.
        rewrite filter_cons_True by reflexivity. cbn [fmap list_fmap snd].
        f_equal. apply IH; [congruence | exact Hnext | exact Hrest].
      * subst key2. cbn [run].
        apply IH; [exact Hmax | | exact Hrest].
        cbn [clear buffers]. now rewrite !lookup_delete_eq.
    + rewrite filter_cons_False in Hsame by exact Hkey.
      destruct c as [key1 chunk ps | key1]; cbn [call_key] in Hkey.
      * pose proof (matches_other_key m key key1 chunk ps Hkey) as Hother.
        pose proof (matches_maxBufferChars m key1 chunk ps) as Hmax1.
        cbn [run].
        destruct (matches exec m key1 chunk ps) as [[b m1] ps1].
        cbn [fst snd] in *.
        specialize (IH m1 m' alone).
        destruct (run exec m1 calls) as [answers m2].
        cbn [fst] in *. unfold answers_of in *.
        rewrite filter_cons_False by exact Hkey.
        apply IH; [congruence | congruence | exact Hsame].
      * cbn [run]. apply IH; [exact Hmax | | exact Hsame].
        cbn [clear buffers]. now rewrite lookup_delete_ne.
Qed.

End Props.

End MatcherSpec.

(** ** The matcher on literal patterns: the tests of the repository and the
    inputs on which the specification's wording fails *)

Module MatcherExamples.

Import PatternMatcher MatcherSpec LiteralEngine.





(** The first terminal of [two_terminals], interleaved and alone; alone, the
    patterns come with another [lastIndex]. *)
Lemma sessions_isolated_witness :
  let stale := [set_lastIndex (literal (str "fatal")) 3] in
  let alone := [ Matches 1%positive (str "fa") stale;
                 Matches 1%positive (str "tal") stale ] in
  answers_of 1%positive (run literal_exec fresh two_terminals).1
  = (run literal_exec fresh alone).1.*2.
Proof.
  intros stale alone.
  apply (sessions_isolated literal_exec fresh fresh 1%positive two_terminals alone).
  - reflexivity.
  - reflexivity.
  - repeat constructor.
Defined.

End MatcherExamples.

(** ** The configuration normalizers *)

Module ConfigSpec.

Import ConfigParser.

Section Patterns.

Context {Src : Type}.
Variable compile : jsstring -> jsstring -> completion Src.

Lemma compiled_pattern_compiles pattern :
  compiled_pattern compile pattern = None <-> compiles compile pattern = false.
Proof.
  unfold compiled_pattern, compiles, new_RegExp, bind.
  destruct (compile pattern (str "i")); split; congruence.
Qed.

(** [new RegExp(pattern, "i")] returns or throws. *)
Lemma new_RegExp_cases pattern :
  (exists re, new_RegExp compile pattern (str "i") = Normal re /\
              compiled_pattern compile pattern = Some re /\
              compiles compile pattern = true) \/
  (exists e, new_RegExp compile pattern (str "i") = Throw e /\
             compiled_pattern compile pattern = None /\
             compiles compile pattern = false).
Proof.
  unfold compiled_pattern, compiles, new_RegExp, bind.
  destruct (compile pattern (str "i")) as [src | e]; [left | right]; eauto.
Qed.

(** The loop never throws; it appends to [compiled] the patterns that
    compile and to [invalid] those that do not, in the order of the
    candidates. *)
Lemma parse_candidates_spec (candidates : list jsstring)
    (compiled0 : list (RegExp Src)) (invalid0 : list jsstring) :
  let tried := filter (fun p => p <> []) (trim <$> candidates) in
  parse_candidates compile candidates compiled0 invalid0
  = Normal {| compiled := compiled0 ++ omap (compiled_pattern compile) tried;
              invalid := invalid0
                ++ filter (fun p => compiles compile p = false) tried |}.
Proof.
  revert compiled0 invalid0.
  induction candidates as [| candidate rest IH]; intros compiled0 invalid0.
  - cbn. now rewrite !app_nil_r.
  - cbn [parse_candidates fmap list_fmap]. cbv zeta.
    destruct (trim candidate) as [| c pattern] eqn:Htrim.
    + cbn [length Nat.eqb]. rewrite filter_cons_False by (intros Hne; now apply Hne).
      apply IH.
    + cbn [length Nat.eqb]. rewrite filter_cons_True by discriminate.
      cbn [omap list_omap].
      destruct (new_RegExp_cases (c :: pattern))
        as [(re & Hnew & Hsome & Hyes) | (e & Hnew & Hnone & Hno)].
      * rewrite Hnew, Hsome. cbn [bind try_catch fst snd].
        rewrite filter_cons_False by congruence.
        rewrite IH. cbv zeta. now rewrite <- app_assoc.
      * rewrite Hnew, Hnone. cbn [bind try_catch fst snd].
        rewrite filter_cons_True by exact Hno.
        rewrite IH. cbv zeta. now rewrite <- app_assoc.
Qed.

(** C6: [parseErrorPatterns] returns for every input, without throwing;
    [invalid] holds the candidates that fail to compile and [compiled] the
    patterns compiled from all the others, both in input order.  Given that
    the engine compiles ["Error"] and ["TypeError"] and rejects ["[invalid"],
    the array of the three gives two compiled patterns and
    [invalid = ["[invalid"]]; given that it compiles the five default patterns,
    an input that is not an array gives five compiled patterns. *)
Theorem parseErrorPatterns_spec (raw : jsval) :
  (exists result,
      parseErrorPatterns compile raw = Normal result /\
      compiled result = omap (compiled_pattern compile) (patterns_to_compile raw) /\
      invalid result
      = filter (fun p => compiles compile p = false) (patterns_to_compile raw) /\
      (length (compiled result) + length (invalid result)
       = length (patterns_to_compile raw))%nat) /\
  (compiles compile (str "Error") = true ->
   compiles compile (str "TypeError") = true ->
   compiles compile (str "[invalid") = false ->
   exists result,
     parseErrorPatterns compile
       (JsArray [JsString (str "Error"); JsString (str "[invalid");
                 JsString (str "TypeError")]) = Normal result /\
     length (compiled result) = 2%nat /\
     invalid result = [str "[invalid"]) /\
  (Forall (fun p => compiles compile p = true) DEFAULT_ERROR_PATTERNS ->
   exists result,
     parseErrorPatterns compile (JsString (str "not-an-array")) = Normal result /\
     length (compiled result) = length DEFAULT_ERROR_PATTERNS /\
     length DEFAULT_ERROR_PATTERNS = 5%nat /\
     invalid result = []).
Proof.
  split; [| split].
  - unfold parseErrorPatterns. rewrite parse_candidates_spec.
    fold (patterns_to_compile raw). eexists. split; [reflexivity |].
    cbn [compiled invalid app]. split; [reflexivity | split; [reflexivity |]].
    induction (patterns_to_compile raw) as [| p ps IH]; [reflexivity |].
    cbn [omap list_omap]. destruct (compiled_pattern compile p) eqn:Hp.
    + rewrite filter_cons_False.
      * cbn [length]. now rewrite <- IH.
      * intros Hfail. apply compiled_pattern_compiles in Hfail. congruence.
    + rewrite filter_cons_True by now apply compiled_pattern_compiles.
      cbn [length]. rewrite <- IH. lia.
  - intros Herror Htype Hinvalid.
    unfold parseErrorPatterns. rewrite parse_candidates_spec.
    eexists. split; [reflexivity |]. cbn [compiled invalid app].
    change (filter (fun p : jsstring => p <> []) (trim <$> normalizeStringArray
              (JsArray [JsString (str "Error"); JsString (str "[invalid");
                        JsString (str "TypeError")]) DEFAULT_ERROR_PATTERNS))
      with [str "Error"; str "[invalid"; str "TypeError"].
    rewrite filter_cons_False by congruence.
    rewrite filter_cons_True by exact Hinvalid.
    rewrite filter_cons_False by congruence.
    cbn [omap list_omap]. unfold compiled_pattern, new_RegExp, compiles in *.
    destruct (compile (str "Error") (str "i")); [| discriminate].
    destruct (compile (str "TypeError") (str "i")); [| discriminate].
    destruct (compile (str "[invalid") (str "i")); [discriminate |].
    split; reflexivity.
  - intros Hdefaults.
    unfold parseErrorPatterns. rewrite parse_candidates_spec.
    eexists. split; [reflexivity |]. cbn [compiled invalid app].
    change (filter (fun p : jsstring => p <> []) (trim <$> normalizeStringArray
              (JsString (str "not-an-array")) DEFAULT_ERROR_PATTERNS))
      with DEFAULT_ERROR_PATTERNS.
    split; [| split; [reflexivity |]].
    + induction Hdefaults as [| p ps Hp _ IH]; [reflexivity |].
      cbn [omap list_omap]. destruct (compiled_pattern compile p) eqn:E.
      * cbn [length]. now rewrite IH.
      * apply compiled_pattern_compiles in E. congruence.
    + induction Hdefaults as [| p ps Hp _ IH]; [reflexivity |].
      rewrite filter_cons_False by congruence. exact IH.
Qed.

End Patterns.

(** The first test of the repository, on the engine for literal patterns. *)
Lemma parseErrorPatterns_spec_witness :
  (exists result,
     parseErrorPatterns LiteralEngine.literal_compile
       (JsArray [JsString (str "Error"); JsString (str "[invalid");
                 JsString (str "TypeError")]) = Normal result /\
     length (compiled result) = 2%nat /\
     invalid result = [str "[invalid"]) /\
  (exists result,
     parseErrorPatterns LiteralEngine.literal_compile
       (JsString (str "not-an-array")) = Normal result /\
     length (compiled result) = length DEFAULT_ERROR_PATTERNS /\
     length DEFAULT_ERROR_PATTERNS = 5%nat /\
     invalid result = []).
Proof.
  split.
  - exact (proj1 (proj2 (parseErrorPatterns_spec LiteralEngine.literal_compile
                           JsNull)) eq_refl eq_refl eq_refl).
  - apply (proj2 (proj2 (parseErrorPatterns_spec LiteralEngine.literal_compile
                           JsNull))).
    repeat constructor.
Defined.

(** *** Exit codes *)

Lemma strict_eqb_of_Z (a b : Z) : strict_eqb (of_Z a) (of_Z b) = bool_decide (a = b).
Proof.
  unfold strict_eqb, of_Z.
  destruct (Qeq_bool (inject_Z a) (inject_Z b)) eqn:E.
  - apply Qeq_bool_iff in E. rewrite inject_Z_injective in E.
    now rewrite bool_decide_eq_true_2.
  - rewrite bool_decide_eq_false_2; [reflexivity |].
    intros ->. assert (Qeq_bool (inject_Z b) (inject_Z b) = true); [| congruence].
    apply Qeq_bool_iff. reflexivity.
Qed.

(** Membership in a set of integers. *)
Lemma Set_has_of_Z (z : Z) (zs : list Z) :
  existsb (SameValueZero (of_Z z)) (of_Z <$> zs) = bool_decide (z ∈ zs).
Proof.
  induction zs as [| y zs IH].
  - cbn. rewrite bool_decide_eq_false_2; [reflexivity | apply not_elem_of_nil].
  - cbn [fmap list_fmap existsb].
    change (SameValueZero (of_Z z) (of_Z y)) with (strict_eqb (of_Z z) (of_Z y)).
    rewrite strict_eqb_of_Z, IH.
    destruct (decide (z = y)) as [-> | Hne].
    + rewrite (bool_decide_eq_true_2 (y = y)) by reflexivity.
      now rewrite (bool_decide_eq_true_2 (y ∈ y :: zs)) by apply list_elem_of_here.
    + rewrite (bool_decide_eq_false_2 (z = y)) by exact Hne. cbn [orb].
      apply bool_decide_ext. rewrite elem_of_cons. tauto.
Qed.

(** The loop keeps a set of distinct integers other than zero, and adds to
    it the exit codes of the values. *)
Lemma collect_exit_codes_spec (values : list jsval) (zs0 : list Z) :
  NoDup zs0 -> 0 ∉ zs0 ->
  exists zs,
    collect_exit_codes values (of_Z <$> zs0) = of_Z <$> zs /\
    NoDup zs /\ (0 ∉ zs) /\
    forall z, z ∈ zs <-> z ∈ zs0 \/ exit_code_of values z.
Proof.
  revert zs0. induction values as [| v values IH]; intros zs0 Hnodup Hzero.
  - exists zs0. repeat split; try assumption.
    + now left.
    + intros [Hin | (_ & q & Hq & _)]; [exact Hin | now apply elem_of_nil in Hq].
  - assert (Hskip : (forall q, v = JsNumber (Finite q) -> truncQ q = 0) ->
                    collect_exit_codes (v :: values) (of_Z <$> zs0)
                    = collect_exit_codes values (of_Z <$> zs0) ->
                    exists zs,
                      collect_exit_codes (v :: values) (of_Z <$> zs0) = of_Z <$> zs /\
                      NoDup zs /\ (0 ∉ zs) /\
                      forall z, z ∈ zs <-> z ∈ zs0 \/ exit_code_of (v :: values) z).
    { intros Hv ->. destruct (IH zs0 Hnodup Hzero) as (zs & Heq & Hnd & Hz & Hiff).
      exists zs. repeat split; try assumption.
      - intros Hin. apply Hiff in Hin as [Hin | (Hne & q & Hq & Ht)]; [now left |].
        right. split; [exact Hne |]. exists q. split; [| exact Ht].
        now apply list_elem_of_further.
      - intros [Hin | (Hne & q & Hq & Ht)]; apply Hiff; [now left |].
        apply elem_of_cons in Hq as [Hq | Hq].
        + symmetry in Hq. apply Hv in Hq. congruence.
        + right. split; [exact Hne |]. now exists q. }
    destruct v as [| | b | [| | q |] | s | l |];
      try (apply Hskip; [intros q; discriminate | reflexivity]).
    destruct (decide (truncQ q = 0)) as [Hq0 | Hq0].
    + apply Hskip.
      * now intros q' [= <-].
      * cbn [collect_exit_codes isFinite negb Math_trunc].
        rewrite strict_eqb_of_Z. now rewrite bool_decide_eq_true_2.
    + cbn [collect_exit_codes isFinite negb Math_trunc].
      rewrite strict_eqb_of_Z.
      rewrite bool_decide_eq_false_2 by exact Hq0.
      unfold Set_add. rewrite Set_has_of_Z.
      destruct (decide (truncQ q ∈ zs0)) as [Hin | Hnotin].
      * rewrite bool_decide_eq_true_2 by exact Hin.
        destruct (IH zs0 Hnodup Hzero) as (zs & Heq & Hnd & Hz & Hiff).
        exists zs. repeat split; try assumption.
        -- intros Hz'. apply Hiff in Hz' as [Hz' | (Hne & q' & Hq' & Ht)]; [now left |].
           right. split; [exact Hne |]. exists q'. split; [| exact Ht].
           now apply list_elem_of_further.
        -- intros [Hz' | (Hne & q' & Hq' & Ht)]; apply Hiff; [now left |].
           apply elem_of_cons in Hq' as [[= <-] | Hq'].
           ++ left. now rewrite <- Ht.
           ++ right. split; [exact Hne |]. now exists q'.
      * rewrite bool_decide_eq_false_2 by exact Hnotin.
        replace ((of_Z <$> zs0) ++ [of_Z (truncQ q)])
          with (of_Z <$> (zs0 ++ [truncQ q])) by now rewrite fmap_app.
        destruct (IH (zs0 ++ [truncQ q])) as (zs & Heq & Hnd & Hz & Hiff).
        { apply NoDup_app. repeat split; [exact Hnodup | | apply NoDup_singleton].
          intros x Hx Hx'. apply list_elem_of_singleton in Hx'. now subst x. }
        { rewrite elem_of_app, list_elem_of_singleton. intros [H0 | H0]; auto. }
        exists zs. repeat split; try assumption.
        -- intros Hz'. apply Hiff in Hz' as [Hz' | (Hne & q' & Hq' & Ht)].
           ++ apply elem_of_app in Hz' as [Hz' | Hz']; [now left |].
              apply list_elem_of_singleton in Hz'. subst z. right.
              split; [exact Hq0 |]. exists q. split; [apply list_elem_of_here | reflexivity].
           ++ right. split; [exact Hne |]. exists q'. split; [| exact Ht].
              now apply list_elem_of_further.
        -- intros [Hz' | (Hne & q' & Hq' & Ht)]; apply Hiff.
           ++ left. apply elem_of_app. now left.
           ++ apply elem_of_cons in Hq' as [[= <-] | Hq'].
              ** left. apply elem_of_app. right. apply list_elem_of_singleton. now rewrite Ht.
              ** right. split; [exact Hne |]. now exists q'.
Qed.

(** C7: the result of [normalizeIgnoreExitCodes] is a list of distinct
    integers, none of them zero: exactly the truncations toward zero, other
    than zero, of the finite entries of type number; every other entry, a
    numeric string among them, is dropped.  For [[130, 2.8, 130, 0, "9"]] the
    result holds 130 and 2 and nothing else. *)
Theorem normalizeIgnoreExitCodes_spec (raw : jsval) :
  (exists zs : list Z,
     normalizeIgnoreExitCodes raw = of_Z <$> zs /\
     NoDup zs /\ (0 ∉ zs) /\
     forall z, z ∈ zs <->
       exit_code_of (normalizeUnknownArray raw DEFAULT_IGNORE_EXIT_CODES) z) /\
  Forall (fun code => strict_eqb code (of_Z 0) = false)
         (normalizeIgnoreExitCodes raw) /\
  normalizeIgnoreExitCodes
    (JsArray [JsNumber (of_Z 130); JsNumber (Finite (28 # 10));
              JsNumber (of_Z 130); JsNumber (of_Z 0); JsString (str "9")])
  = [of_Z 130; of_Z 2] /\
  normalizeIgnoreExitCodes (JsString (str "130")) = [of_Z 130].
Proof.
  assert (Hspec : exists zs : list Z,
     normalizeIgnoreExitCodes raw = of_Z <$> zs /\
     NoDup zs /\ (0 ∉ zs) /\
     forall z, z ∈ zs <->
       exit_code_of (normalizeUnknownArray raw DEFAULT_IGNORE_EXIT_CODES) z).
  { unfold normalizeIgnoreExitCodes.
    destruct (collect_exit_codes_spec
                (normalizeUnknownArray raw DEFAULT_IGNORE_EXIT_CODES) []
                (NoDup_nil_2) (not_elem_of_nil 0))
      as (zs & Heq & Hnd & Hz & Hiff).
    exists zs. split; [exact Heq | split; [exact Hnd | split; [exact Hz |]]].
    intros z. split.
    - intros Hin. apply Hiff in Hin as [Hin | Hin]; [now apply elem_of_nil in Hin | exact Hin].
    - intros Hin. apply Hiff. now right. }
  split; [exact Hspec | split; [| split; reflexivity]].
  destruct Hspec as (zs & -> & _ & Hzero & _).
  apply Forall_fmap, Forall_forall. intros z Hz. cbn [compose].
  rewrite strict_eqb_of_Z. apply bool_decide_eq_false_2. intros ->. contradiction.
Qed.

End ConfigSpec.

(** ** The tests of the repository, run on the model *)

Module RepositoryTests.

Import Debounce PatternMatcher ConfigParser LiteralEngine MatcherExamples.

(** "DebounceGate allows first trigger and blocks within the debounce window" *)
Example test_debounce_window :
  (canTrigger_all (new_DebounceGate (of_Z 500))
     [of_Z 1000; of_Z 1200; of_Z 1601]).1 = [true; false; true].
Proof. reflexivity. Qed.

(** "RollingPatternMatcher keeps terminal buffers isolated" *)
Example test_buffers_isolated :
  (run literal_exec fresh two_terminals).1
  = [(1%positive, false); (2%positive, false); (1%positive, true);
     (2%positive, false)].
Proof. vm_compute. reflexivity. Qed.

(** "normalizeDebounceMs clamps invalid values to defaults and bounds" *)
Example test_normalizeDebounceMs :
  normalizeDebounceMs (JsString (str "abc")) = DEFAULT_DEBOUNCE_MS /\
  normalizeDebounceMs (JsNumber (of_Z (-5))) = of_Z 0 /\
  normalizeDebounceMs (JsNumber (of_Z 80000)) = of_Z 60000.
Proof. repeat split. Qed.

(** The alternative of the pattern for OSC sequences is never reached:
    [ESC ]] is matched by the first alternative, so the title stays. *)
Example osc_sequence_kept :
  stripAnsiSequences (ESC :: str "]0;title" ++ [BEL] ++ str "done")
  = str "0;title" ++ [BEL] ++ str "done".
Proof. reflexivity. Qed.

End RepositoryTests.

(** * Further properties of the code *)

(** ** Runs of the debounce gate, and reloads of its window *)

Module DebounceRunsSpec.

Import Debounce DebounceRuns DebounceSpec.

(** On finite values and with a positive window, [a - b < w] being false
    is [a - b >= w]. *)
Lemma not_ltb_geb a b w :
  is_positive w -> isFinite a = true -> isFinite b = true ->
  ltb (sub a b) w = false -> geb (sub a b) w = true.
Proof.
  unfold is_positive, geb.
  destruct a, b, w; cbn; try congruence.
  intros _ _ _ Hge. apply Qltb_ge in Hge. now apply Qle_bool_iff.
Qed.

Lemma allowed_times_finite g times :
  Forall (fun t => isFinite t = true) times ->
  Forall (fun t => isFinite t = true) (allowed_times g times).
Proof.
  intros Hfin. revert g. induction Hfin as [| now rest Hnow _ IH]; intros g.
  - constructor.
  - cbn [allowed_times]. destruct (canTrigger g now) as [[|] g1].
    + constructor; [exact Hnow | apply IH].
    + apply IH.
Qed.

Lemma spaced_apart w last ts :
  is_positive w -> isFinite last = true ->
  Forall (fun t => isFinite t = true) ts ->
  spaced w last ts -> apart w last ts.
Proof.
  intros Hpos Hlast Hts. revert last Hlast.
  induction Hts as [| t ts Ht _ IH]; intros last Hlast; [trivial |].
  cbn [spaced apart]. intros [Hfar Hrest]. split.
  - now apply not_ltb_geb.
  - now apply IH.
Qed.

(** X1: with a positive window, whatever the times of the calls and their
    order, each allowed call comes no less than the window after the allowed
    call before it, and the first allowed call no less than the window after
    the trigger time the gate started with. *)
Theorem allowed_calls_spaced (g : DebounceGate) (times : list number) :
  is_positive (debounceMs g) ->
  spaced (debounceMs g) (lastTriggeredAt g) (allowed_times g times) /\
  (isFinite (lastTriggeredAt g) = true ->
   Forall (fun t => isFinite t = true) times ->
   apart (debounceMs g) (lastTriggeredAt g) (allowed_times g times)).
Proof.
  intros Hpos.
  assert (Hspaced : spaced (debounceMs g) (lastTriggeredAt g) (allowed_times g times)).
  { revert g Hpos. induction times as [| now rest IH]; intros g Hpos; [exact I |].
    cbn [allowed_times]. rewrite (canTrigger_positive g now Hpos).
    destruct (ltb (sub now (lastTriggeredAt g)) (debounceMs g)) eqn:Hnear.
    - now apply IH.
    - cbn [spaced]. split; [exact Hnear |].
      apply (IH (set_lastTriggeredAt g now)). exact Hpos. }
  split; [exact Hspaced |].
  intros Hlast Htimes. apply spaced_apart; try assumption.
  now apply allowed_times_finite.
Qed.

(** A window of 500 and calls at 1000, 1200, 1601, 1700, 2101. *)
Lemma allowed_calls_spaced_witness :
  let g := new_DebounceGate (of_Z 500) in
  let times := [of_Z 1000; of_Z 1200; of_Z 1601; of_Z 1700; of_Z 2101] in
  allowed_times g times = [of_Z 1000; of_Z 1601; of_Z 2101] /\
  apart (of_Z 500) (of_Z 0) (allowed_times g times).
Proof.
  intros g times. split; [reflexivity |].
  apply (proj2 (allowed_calls_spaced g times eq_refl)).
  - reflexivity.
  - repeat constructor.
Defined.

(** X2: a run of calls leaves in the gate the time of the last call it
    allowed, or the gate as it was when it allowed none: a rejected call
    leaves no trace.  The window is never changed by a call. *)
Theorem run_keeps_last_allowed (g : DebounceGate) (times : list number) :
  (canTrigger_all g times).2
  = match last (allowed_times g times) with
    | Some t => set_lastTriggeredAt g t
    | None => g
    end /\
  debounceMs (canTrigger_all g times).2 = debounceMs g /\
  length (allowed_times g times)
  = length (filter (fun b => b = true) (canTrigger_all g times).1).
Proof.
  revert g. induction times as [| now rest IH]; intros g.
  - repeat split.
  - cbn [canTrigger_all allowed_times].
    assert (Hstep : canTrigger g now = (false, g) \/
                    canTrigger g now = (true, set_lastTriggeredAt g now)).
    { unfold canTrigger. destruct (leb _ _); [now right |].
      destruct (ltb _ _); [now left | now right]. }
    destruct Hstep as [-> | ->].
    + destruct (IH g) as (Hstate & Hwindow & Hcount).
      destruct (canTrigger_all g rest) as [bs g2]. cbn [fst snd] in *.
      rewrite filter_cons_False by discriminate. auto.
    + destruct (IH (set_lastTriggeredAt g now)) as (Hstate & Hwindow & Hcount).
      destruct (canTrigger_all (set_lastTriggeredAt g now) rest) as [bs g2].
      cbn [fst snd] in *. rewrite filter_cons_True by reflexivity.
      cbn [length]. rewrite Hcount. split; [| split; [exact Hwindow | reflexivity]].
      rewrite Hstate. rewrite last_cons.
      now destruct (last (allowed_times (set_lastTriggeredAt g now) rest)).
Qed.

(** X3: [updateDebounceMs] keeps the time of the last trigger, so the next
    call is decided by the new window measured from that time: with a
    smaller window a call the old window rejects is allowed at once, and with
    a larger window a call the old window allows is rejected.  Only the last
    of two updates counts. *)
Theorem window_reload (g : DebounceGate) (w t : number) :
  is_positive (debounceMs g) -> is_positive w ->
  let elapsed := sub t (lastTriggeredAt g) in
  lastTriggeredAt (updateDebounceMs g w) = lastTriggeredAt g /\
  (forall w0, updateDebounceMs (updateDebounceMs g w0) w = updateDebounceMs g w) /\
  (ltb elapsed (debounceMs g) = true -> geb elapsed w = true ->
     (canTrigger g t).1 = false /\ (canTrigger (updateDebounceMs g w) t).1 = true) /\
  (geb elapsed (debounceMs g) = true -> ltb elapsed w = true ->
     (canTrigger g t).1 = true /\ (canTrigger (updateDebounceMs g w) t).1 = false).
Proof.
  intros Hold Hnew elapsed.
  assert (Hw : debounceMs (updateDebounceMs g w) = w)
    by (cbn; now apply Math_max_0_positive).
  assert (Hupd : canTrigger (updateDebounceMs g w) t =
                 if ltb elapsed w then (false, updateDebounceMs g w)
                 else (true, set_lastTriggeredAt (updateDebounceMs g w) t)).
  { rewrite canTrigger_positive by (rewrite Hw; exact Hnew). now rewrite Hw. }
  rewrite Hupd, (canTrigger_positive g t Hold). fold elapsed.
  split; [reflexivity | split; [reflexivity | split]].
  - intros Hnear Hfar. rewrite Hnear, (leb_not_ltb _ _ Hfar). now split.
  - intros Hfar Hnear. rewrite Hnear, (leb_not_ltb _ _ Hfar). now split.
Qed.

(** A trigger at 1300 under a window of 1200, and a call at 1500: rejected,
    but allowed once the window is reloaded as 100. *)
Lemma window_reload_witness :
  let g := (canTrigger (new_DebounceGate (of_Z 1200)) (of_Z 1300)).2 in
  (canTrigger g (of_Z 1500)).1 = false /\
  (canTrigger (updateDebounceMs g (of_Z 100)) (of_Z 1500)).1 = true.
Proof.
  intros g.
  exact (proj1 (proj2 (proj2 (window_reload g (of_Z 100) (of_Z 1500)
                                 eq_refl eq_refl))) eq_refl eq_refl).
Defined.

End DebounceRunsSpec.

(** ** The normalizers: range, fixed points, and the gate they feed *)

Module ConfigExtras.

Import ConfigParser ConfigSpec.

Lemma truncQ_le q n : (q <= inject_Z n)%Q -> truncQ q <= n.
Proof.
  unfold Qle, truncQ. cbn. rewrite Z.mul_1_r. intros Hle.
  rewrite <- (Z.quot_mul n (Z.pos (Qden q))) by discriminate.
  apply Z.quot_le_mono; [reflexivity | exact Hle].
Qed.

Lemma truncQ_ge q n : (inject_Z n <= q)%Q -> n <= truncQ q.
Proof.
  unfold Qle, truncQ. cbn. rewrite Z.mul_1_r. intros Hle.
  rewrite <- (Z.quot_mul n (Z.pos (Qden q))) at 1 by discriminate.
  apply Z.quot_le_mono; [reflexivity | exact Hle].
Qed.

Lemma truncQ_inject_Z z : truncQ (inject_Z z) = z.
Proof.
  apply truncQ_integer. reflexivity.
Qed.

Lemma Math_min_finite a q :
  Math_min (of_Z a) (Finite q) = if Qltb q (inject_Z a) then Finite q else of_Z a.
Proof. reflexivity. Qed.

Lemma Math_max_0_finite q :
  Math_max (of_Z 0) (Finite q) = if Qltb (inject_Z 0) q then Finite q else of_Z 0.
Proof. reflexivity. Qed.

(** [normalizeDebounceMs] on a finite number: truncating the clamped value
    is clamping the truncated value. *)
Lemma normalizeDebounceMs_finite q :
  normalizeDebounceMs (JsNumber (Finite q))
  = of_Z (Z.max 0 (Z.min 60000 (truncQ q))).
Proof.
  cbn [normalizeDebounceMs isFinite]. rewrite Math_min_finite.
  destruct (Qltb q (inject_Z 60000)) eqn:Hhigh.
  - apply Qltb_lt in Hhigh. rewrite Math_max_0_finite.
    destruct (Qltb (inject_Z 0) q) eqn:Hlow.
    + apply Qltb_lt in Hlow. cbn [Math_trunc]. f_equal.
      assert (0 <= truncQ q) by (apply truncQ_ge; lra).
      assert (truncQ q <= 60000) by (apply truncQ_le; lra). lia.
    + apply Qltb_ge in Hlow. unfold of_Z at 1. cbn [Math_trunc].
      rewrite truncQ_inject_Z. f_equal.
      assert (truncQ q <= 0) by now apply truncQ_le. lia.
  - apply Qltb_ge in Hhigh.
    assert (60000 <= truncQ q) by now apply truncQ_ge.
    replace (Z.max 0 (Z.min 60000 (truncQ q))) with 60000 by lia.
    reflexivity.
Qed.

(** The normalized window is an integer of [0, 60000]. *)
Lemma normalizeDebounceMs_integer raw :
  exists z, normalizeDebounceMs raw = of_Z z /\ 0 <= z <= 60000.
Proof.
  destruct raw as [| | b | [| | q |] | s | l |];
    try (exists 1200; split; [reflexivity | lia]).
  rewrite normalizeDebounceMs_finite. eexists. split; [reflexivity | lia].
Qed.

(** X4: [normalizeDebounceMs] returns an integer between 0 and 60000 for
    every input: for a finite number its truncation toward zero clamped to
    that range, and 1200 for anything else, NaN and the infinities included. *)
Theorem normalizeDebounceMs_range (raw : jsval) :
  (exists z, normalizeDebounceMs raw = of_Z z /\ 0 <= z <= 60000) /\
  match raw with
  | JsNumber (Finite q) =>
      normalizeDebounceMs raw = of_Z (Z.max 0 (Z.min 60000 (truncQ q)))
  | _ => normalizeDebounceMs raw = of_Z 1200
  end.
Proof.
  split; [apply normalizeDebounceMs_integer |].
  destruct raw as [| | b | [| | q |] | s | l |]; try reflexivity.
  apply normalizeDebounceMs_finite.
Qed.

Lemma Math_max_0_of_Z z : 0 <= z -> Math_max (of_Z 0) (of_Z z) = of_Z z.
Proof.
  intros Hz. unfold Math_max, of_Z. cbn [ltb].
  destruct (Qltb (inject_Z 0) (inject_Z z)) eqn:E; [reflexivity |].
  apply Qltb_ge in E. rewrite <- Zle_Qle in E.
  now replace z with 0 by lia.
Qed.

(** X5: a window that went through [normalizeDebounceMs] is stored by the
    gate as it is, at construction and at update, so the gate never holds NaN
    or an infinity that came from the settings; and normalizing a normalized
    window changes nothing. *)
Theorem normalized_window_stored (raw : jsval) (g : Debounce.DebounceGate) :
  let w := normalizeDebounceMs raw in
  Debounce.debounceMs (Debounce.new_DebounceGate w) = w /\
  Debounce.debounceMs (Debounce.updateDebounceMs g w) = w /\
  isFinite (Debounce.debounceMs (Debounce.updateDebounceMs g w)) = true /\
  normalizeDebounceMs (JsNumber w) = w.
Proof.
  intros w. destruct (normalizeDebounceMs_integer raw) as (z & Hz & Hrange).
  subst w. rewrite Hz. cbn [Debounce.new_DebounceGate Debounce.updateDebounceMs
                              Debounce.debounceMs].
  rewrite (Math_max_0_of_Z z) by lia.
  repeat split.
  unfold of_Z at 1. rewrite normalizeDebounceMs_finite, truncQ_inject_Z.
  f_equal. lia.
Qed.

(** *** Patterns *)

(** X6: an array that holds no string other than blank ones gives no
    pattern at all: [compiled] and [invalid] are both empty, and the default
    patterns are not used in its place.  The empty array is one such. *)
Theorem no_pattern_from_blank_entries {Src : Type}
    (compile : jsstring -> jsstring -> completion Src) (entries : list jsval) :
  (forall s, JsString s ∈ entries -> trim s = []) ->
  parseErrorPatterns compile (JsArray entries)
  = Normal {| compiled := []; invalid := [] |}.
Proof.
  intros Hblank. unfold parseErrorPatterns. rewrite parse_candidates_spec.
  cbn [normalizeStringArray app].
  assert (Hnone : filter (fun p : jsstring => p <> [])
                    (trim <$> omap (fun value => match value with
                                                 | JsString s => Some s
                                                 | _ => None
                                                 end) entries) = []).
  { induction entries as [| v entries IH]; [reflexivity |].
    assert (IH' := IH (fun s Hs => Hblank s (list_elem_of_further _ _ _ Hs))).
    destruct v; cbn [omap list_omap fmap list_fmap]; try exact IH'.
    rewrite filter_cons_False; [exact IH' |].
    intros Hne. apply Hne, Hblank. apply list_elem_of_here. }
  now rewrite Hnone.
Qed.

(** An array of a number, a blank string and an empty string. *)
Lemma no_pattern_from_blank_entries_witness :
  parseErrorPatterns LiteralEngine.literal_compile
    (JsArray [JsNumber (of_Z 7); JsString (str "  "); JsString []])
  = Normal {| compiled := []; invalid := [] |}.
Proof.
  apply no_pattern_from_blank_entries.
  intros s Hs.
  repeat (apply elem_of_cons in Hs as [Hs | Hs];
          [try discriminate; injection Hs as ->; reflexivity |]).
  now apply elem_of_nil in Hs.
Defined.

(** *** Exit codes *)

Lemma collect_exit_codes_of_Z z rest unique :
  collect_exit_codes (JsNumber (of_Z z) :: rest) unique
  = if bool_decide (z = 0) then collect_exit_codes rest unique
    else collect_exit_codes rest (Set_add unique (of_Z z)).
Proof.
  cbn [collect_exit_codes]. change (isFinite (of_Z z)) with true. cbn [negb].
  change (Math_trunc (of_Z z)) with (of_Z (truncQ (inject_Z z))).
  now rewrite truncQ_inject_Z, strict_eqb_of_Z.
Qed.

(** The loop on codes that are already normal appends them as they are. *)
Lemma collect_normal_codes (zs acc : list Z) :
  NoDup (acc ++ zs) -> 0 ∉ zs ->
  collect_exit_codes (JsNumber <$> (of_Z <$> zs)) (of_Z <$> acc)
  = of_Z <$> (acc ++ zs).
Proof.
  revert acc. induction zs as [| z zs IH]; intros acc Hnodup Hzero.
  - now rewrite app_nil_r.
  - apply not_elem_of_cons in Hzero as [Hz Hzero].
    cbn [fmap list_fmap]. rewrite collect_exit_codes_of_Z.
    rewrite bool_decide_eq_false_2 by congruence.
    unfold Set_add. rewrite Set_has_of_Z.
    assert (Hfresh : z ∉ acc).
    { apply NoDup_app in Hnodup as (_ & Hdisjoint & _).
      intros Hin. apply (Hdisjoint z Hin). apply list_elem_of_here. }
    rewrite bool_decide_eq_false_2 by exact Hfresh.
    replace ((of_Z <$> acc) ++ [of_Z z]) with (of_Z <$> (acc ++ [z]))
      by now rewrite fmap_app.
    rewrite (IH (acc ++ [z])); [| | exact Hzero].
    + now rewrite <- app_assoc.
    + now rewrite <- app_assoc.
Qed.

(** X7: [normalizeIgnoreExitCodes] leaves its own results as they are:
    given the array of the codes it returned, it returns the same codes in
    the same order. *)
Theorem normalizeIgnoreExitCodes_idempotent (raw : jsval) :
  normalizeIgnoreExitCodes (JsArray (JsNumber <$> normalizeIgnoreExitCodes raw))
  = normalizeIgnoreExitCodes raw.
Proof.
  unfold normalizeIgnoreExitCodes at 1 3.
  destruct (collect_exit_codes_spec
              (normalizeUnknownArray raw DEFAULT_IGNORE_EXIT_CODES) []
              (NoDup_nil_2) (not_elem_of_nil 0))
    as (zs & Heq & Hnd & Hz & _).
  cbn [fmap list_fmap] in Heq. unfold normalizeIgnoreExitCodes. rewrite Heq.
  cbn [normalizeUnknownArray].
  now apply (collect_normal_codes zs []).
Qed.

End ConfigExtras.

(** ** What stripping keeps *)

Module StripExtras.

Import AnsiSpec.

Lemma delete_matches_sublist r skip s : delete_matches r skip s `sublist_of` s.
Proof.
  revert skip. induction s as [| c s IH]; intros skip; [constructor |].
  cbn [delete_matches]. destruct skip as [| n].
  - destruct (match_length r (c :: s)) as [[| n] |].
    + apply sublist_skip, IH.
    + apply sublist_cons, IH.
    + apply sublist_skip, IH.
  - apply sublist_cons, IH.
Qed.

(** X8: [stripAnsiSequences] only deletes: what it returns is the input
    with some units left out, the others in their order, so it is never longer
    than the input and never holds a unit the input does not hold. *)
Theorem strip_only_deletes (s : jsstring) :
  stripAnsiSequences s `sublist_of` s /\
  (length (stripAnsiSequences s) <= length s)%nat /\
  stripAnsiSequences s ⊆ s.
Proof.
  assert (Hsub : stripAnsiSequences s `sublist_of` s)
    by apply delete_matches_sublist.
  split; [exact Hsub | split].
  - now apply sublist_length.
  - now apply sublist_subseteq.
Qed.

(** The pattern matches ESC and one unit of its first class. *)
Lemma match_two_units c rest :
  either (range 64 90) (range 92 95) c = true ->
  match_at ANSI_SEQUENCE_PATTERN (ESC :: c :: rest) Some = Some rest.
Proof.
  intros Hc. unfold ANSI_SEQUENCE_PATTERN. cbn [match_at].
  change (one ESC ESC) with true. cbv iota. now rewrite Hc.
Qed.

(** X9: ESC followed by a unit of [@-Z] or of [\-_] is deleted as a
    sequence of two units, and the search goes on right after it.  The
    closing bracket is such a unit: of an OSC sequence [ESC ] payload BEL] only
    [ESC ]] is deleted, the payload and the BEL stay. *)
Theorem two_unit_escape (c : code_unit) (rest payload : jsstring) :
  (either (range 64 90) (range 92 95) c = true ->
     stripAnsiSequences (ESC :: c :: rest) = stripAnsiSequences rest) /\
  (ESC ∉ payload ->
     stripAnsiSequences (ESC :: 93%N :: payload ++ BEL :: rest)
     = payload ++ BEL :: stripAnsiSequences rest).
Proof.
  assert (Htwo : forall d tail,
             either (range 64 90) (range 92 95) d = true ->
             stripAnsiSequences (ESC :: d :: tail) = stripAnsiSequences tail).
  { intros d tail Hd. unfold stripAnsiSequences, replace_all_with_empty.
    apply (delete_matches_match ANSI_SEQUENCE_PATTERN [ESC; d] tail);
      [discriminate | now apply match_two_units]. }
  split; [apply Htwo |].
  intros Hpayload. rewrite Htwo by reflexivity.
  replace (payload ++ BEL :: rest) with ((payload ++ [BEL]) ++ rest)
    by now rewrite <- app_assoc.
  rewrite strip_plain_prefix; [now rewrite <- app_assoc |].
  rewrite elem_of_app, list_elem_of_singleton. intros [Hin | Heq]; [auto | discriminate].
Qed.

(** The sequence [ESC M] (reverse index) before plain text, and a window
    title. *)
Lemma two_unit_escape_witness :
  stripAnsiSequences (ESC :: 77%N :: str "ready") = str "ready" /\
  stripAnsiSequences (ESC :: 93%N :: str "0;title" ++ BEL :: str "done")
  = str "0;title" ++ BEL :: str "done".
Proof.
  split.
  - exact (proj1 (two_unit_escape 77%N (str "ready") []) eq_refl).
  - apply (proj2 (two_unit_escape 0%N (str "done") (str "0;title"))).
    not_in_literals.
Defined.

(** An ESC at the very end of the text starts no sequence. *)
Lemma strip_trailing_ESC pre :
  ESC ∉ pre -> stripAnsiSequences (pre ++ [ESC]) = pre ++ [ESC].
Proof.
  intros Hpre. now rewrite strip_plain_prefix.
Qed.

End StripExtras.

(** ** The matcher: discarded buffers, pattern state, and what is kept *)

Module MatcherExtras.

Import PatternMatcher MatcherSpec AnsiSpec StripExtras.

Section Props.

Context {K : Type} `{Countable K}.
Context {Src : Type}.
Variable exec : Src -> bool -> jsstring -> nat -> option nat.

(** X10: [clear] discards the buffer of its session only; the next chunk of
    that session is then matched alone, as the first chunk of a new session
    is, and becomes the buffer.  On a session without buffer [clear] changes
    nothing. *)
Theorem clear_resets_session (m : RollingPatternMatcher K) (key other : K)
    (chunk : jsstring) (patterns : list (RegExp Src)) :
  let text := trimToMax (stripAnsiSequences chunk) (maxBufferChars m) in
  let after := matches exec (clear m key) key chunk patterns in
  buffers (clear m key) !! key = None /\
  after.1.1 = existsb (fun p => pattern_matches exec p text) patterns /\
  buffers after.1.2 !! key = Some text /\
  (other <> key -> buffers (clear m key) !! other = buffers m !! other) /\
  (buffers m !! key = None -> clear m key = m).
Proof.
  intros text after.
  assert (Hgone : buffers (clear m key) !! key = None)
    by (cbn [clear buffers]; apply lookup_delete_eq).
  assert (Htext : combined_text (clear m key) key chunk = text).
  { unfold combined_text. now rewrite Hgone. }
  split; [exact Hgone | split; [| split; [| split]]].
  - subst after. now rewrite matches_answer, Htext.
  - subst after. rewrite matches_matcher. cbn [buffers].
    now rewrite lookup_insert_eq, Htext.
  - intros Hne. cbn [clear buffers]. now apply lookup_delete_ne.
  - intros Hnone. destruct m as [bs maxChars]. unfold clear.
    cbn [buffers maxBufferChars] in *. f_equal. now apply delete_id.
Qed.

(** X11: the answer of [testRegExp] does not depend on the [lastIndex] the
    pattern carries, so testing again gives the same answer, also for global
    and sticky patterns; and a pattern with neither flag is left as it is. *)
Theorem testRegExp_ignores_lastIndex (p : RegExp Src) (text : jsstring) (i : nat) :
  (testRegExp exec (set_lastIndex p i) text).1 = (testRegExp exec p text).1 /\
  (testRegExp exec (testRegExp exec p text).2 text).1 = (testRegExp exec p text).1 /\
  (global p || sticky p = false -> (testRegExp exec p text).2 = p).
Proof.
  split; [| split].
  - now rewrite !testRegExp_answer.
  - pose proof (testRegExp_same exec p text) as (Hs & _ & Hy).
    rewrite !testRegExp_answer. now rewrite <- Hs, <- Hy.
  - intros Hplain. unfold testRegExp, RegExp_test. cbv zeta. rewrite !Hplain.
    change (length text <? 0)%nat with false. cbv iota.
    now destruct (exec (source p) (sticky p) text 0).
Qed.

(** *** The buffer is the last units of the text *)

Lemma leb_of_nat (a b : nat) : leb (of_nat a) (of_nat b) = bool_decide (a <= b)%nat.
Proof.
  cbn. destruct (Qle_bool (inject_Z (Z.of_nat a)) (inject_Z (Z.of_nat b))) eqn:E.
  - apply Qle_bool_iff in E. rewrite <- Zle_Qle in E.
    rewrite bool_decide_eq_true_2; [reflexivity | lia].
  - rewrite bool_decide_eq_false_2; [reflexivity |]. intros Hle.
    assert (Qle_bool (inject_Z (Z.of_nat a)) (inject_Z (Z.of_nat b)) = true);
      [| congruence].
    apply Qle_bool_iff. rewrite <- Zle_Qle. lia.
Qed.

(** With a maximum that is a number of units, [trimToMax] keeps the last
    units. *)
Lemma trimToMax_of_nat value (n : nat) :
  trimToMax value (of_nat n) = drop (length value - n) value.
Proof.
  unfold trimToMax. rewrite leb_of_nat. case_bool_decide as Hfits.
  - now replace (length value - n)%nat with 0%nat by lia.
  - unfold slice. cbn [sub of_nat of_Z ToIntegerOrInfinity].
    rewrite (truncQ_integer _ (Z.of_nat (length value) - Z.of_nat n)).
    2:{ unfold Zminus. now rewrite inject_Z_plus, inject_Z_opp. }
    cbv zeta.
    destruct (Z.ltb_spec (Z.of_nat (length value) - Z.of_nat n) 0); [lia |].
    f_equal. lia.
Qed.

Lemma run_keeps_last (n : nat) (calls : list (call K Src))
    (m : RollingPatternMatcher K) (key : K) (text : jsstring) :
  maxBufferChars m = of_nat n ->
  default [] (buffers m !! key) = drop (length text - n) text ->
  default [] (buffers (run exec m calls).2 !! key)
  = drop (length (accumulated key text calls) - n) (accumulated key text calls).
Proof.
  revert m text. induction calls as [| [key1 chunk ps | key1] calls IH];
    intros m text Hmax Hinv.
  - exact Hinv.
  - cbn [run accumulated]. pose proof (matches_matcher exec m key1 chunk ps) as Hm.
    destruct (matches exec m key1 chunk ps) as [[b m1] ps1]. cbn [fst snd] in Hm.
    specialize (IH m1). destruct (run exec m1 calls) as [answers m2].
    cbn [snd] in *. subst m1. apply IH; [exact Hmax |]. cbn [buffers].
    destruct (decide (key1 = key)) as [-> | Hne].
    + rewrite lookup_insert_eq. cbn [default]. unfold combined_text.
      rewrite Hmax, trimToMax_of_nat, Hinv. apply keep_last_app.
    + now rewrite lookup_insert_ne.
  - cbn [run accumulated]. apply IH; [exact Hmax |]. cbn [clear buffers].
    destruct (decide (key1 = key)) as [-> | Hne].
    + rewrite lookup_delete_eq. now rewrite drop_nil.
    + now rewrite lookup_delete_ne.
Qed.

Lemma Math_max_256_of_nat (n : nat) :
  Math_max (of_Z 256) (of_nat n) = of_nat (Nat.max 256 n).
Proof.
  unfold Math_max, of_nat, of_Z. cbn [ltb].
  destruct (Qltb (inject_Z 256) (inject_Z (Z.of_nat n))) eqn:E.
  - apply Qltb_lt in E. rewrite <- Zlt_Qlt in E. do 3 f_equal. lia.
  - apply Qltb_ge in E. rewrite <- Zle_Qle in E. do 2 f_equal. lia.
Qed.

(** X12: on a matcher built with a number of units, or with none, the
    buffer of a session after any sequence of calls is exactly the last
    [max(256, n)] units (4096 by default) of the stripped text accumulated for
    the session since its buffer was last discarded, or all of that text when
    it is shorter. *)
Theorem buffer_is_last_units (n : option nat) (calls : list (call K Src))
    (key : K) :
  let limit := match n with Some k => Nat.max 256 k | None => 4096%nat end in
  let m : RollingPatternMatcher K :=
    (run exec (new_RollingPatternMatcher (of_nat <$> n)) calls).2 in
  let text := accumulated key [] calls in
  default [] (buffers m !! key) = drop (length text - limit) text.
Proof.
  intros limit m text. subst m text.
  apply run_keeps_last.
  - cbn [new_RollingPatternMatcher maxBufferChars]. subst limit.
    destruct n as [k |]; cbn [fmap option_fmap option_map default].
    + apply Math_max_256_of_nat.
    + reflexivity.
  - cbn [new_RollingPatternMatcher buffers]. rewrite lookup_empty.
    now rewrite drop_nil.
Qed.

(** X13: each chunk is stripped on its own.  When a chunk ends with ESC and
    the sequence goes on in the next chunk, the ESC and the rest of the
    sequence both stay in the buffer. *)
Theorem escape_split_across_chunks (m : RollingPatternMatcher K) (key : K)
    (before rest : jsstring) (patterns : list (RegExp Src)) :
  buffers m !! key = None ->
  ESC ∉ before -> ESC ∉ rest ->
  leb (of_nat (length (before ++ ESC :: rest))) (maxBufferChars m) = true ->
  let first := matches exec m key (before ++ [ESC]) patterns in
  let second := matches exec first.1.2 key rest first.2 in
  buffers second.1.2 !! key = Some (before ++ ESC :: rest).
Proof.
  intros Hnew Hbefore Hrest Hfits first second.
  assert (Hfits1 : leb (of_nat (length (before ++ [ESC]))) (maxBufferChars m) = true).
  { eapply leb_trans; [| exact Hfits]. apply of_nat_leb.
    rewrite !length_app. cbn [length]. lia. }
  assert (Hc1 : combined_text m key (before ++ [ESC]) = before ++ [ESC]).
  { unfold combined_text. rewrite Hnew, strip_trailing_ESC by exact Hbefore.
    cbn [default app]. now apply trimToMax_fits. }
  subst second first. rewrite !matches_matcher. cbn [buffers maxBufferChars].
  rewrite lookup_insert_eq. f_equal. unfold combined_text at 1.
  cbn [buffers maxBufferChars]. rewrite lookup_insert_eq, Hc1. cbn [default].
  rewrite strip_plain by exact Hrest. unfold id.
  rewrite <- app_assoc. cbn [app]. now apply trimToMax_fits.
Qed.

End Props.

End MatcherExtras.

(** ** The event handlers of the controller *)

Module ControllerSpec.

Import PatternMatcher ConfigParser Controller DebounceRuns.
Import MatcherSpec ConfigSpec ConfigExtras.

Section Props.

Context {Terminal : Type} `{Countable Terminal}.
Context {Src : Type}.
Variable exec : Src -> bool -> jsstring -> nat -> option nat.

Local Abbreviation controller := (FaaahController Terminal Src).

(** *** [triggerSound] *)

(** [triggerSound] touches the gate only; it asks for the sound at most
    once, and then the gate has allowed the call. *)
Lemma triggerSound_cases (c : controller) now r :
  let result := triggerSound c now r in
  config result.2 = config c /\
  matcher result.2 = matcher c /\
  soundPathReady result.2 = soundPathReady c /\
  ((existsb is_PlaySound result.1 = false /\
    debounceGate result.2 = debounceGate c) \/
   (existsb is_PlaySound result.1 = true /\
    soundPathReady c = true /\
    Debounce.canTrigger (debounceGate c) now
    = (true, debounceGate result.2))).
Proof.
  unfold triggerSound. destruct (soundPathReady c) eqn:Hready; cbn [negb].
  - destruct (Debounce.canTrigger (debounceGate c) now) as [allowed gate1] eqn:Hgate.
    destruct allowed; cbn [negb fst snd];
      (split; [reflexivity | split; [reflexivity | split; [exact Hready |]]]).
    + right. split; [reflexivity | split; reflexivity].
    + left. split; [reflexivity |]. cbn [set_debounceGate debounceGate].
      unfold Debounce.canTrigger in Hgate.
      destruct (leb _ _); [discriminate |].
      destruct (ltb _ _); congruence.
  - cbn [fst snd].
    split; [reflexivity | split; [reflexivity | split; [exact Hready |]]].
    left. now split.
Qed.

(** *** Exit codes *)

Lemma foldl_Set_add_of_Z (zs acc : list Z) :
  NoDup (acc ++ zs) ->
  foldl Set_add (of_Z <$> acc) (of_Z <$> zs) = of_Z <$> (acc ++ zs).
Proof.
  revert acc. induction zs as [| z zs IH]; intros acc Hnodup.
  - now rewrite app_nil_r.
  - cbn [fmap list_fmap foldl]. unfold Set_add at 2. rewrite Set_has_of_Z.
    assert (Hfresh : z ∉ acc).
    { apply NoDup_app in Hnodup as (_ & Hdisjoint & _).
      intros Hin. apply (Hdisjoint z Hin). apply list_elem_of_here. }
    rewrite bool_decide_eq_false_2 by exact Hfresh.
    replace ((of_Z <$> acc) ++ [of_Z z]) with (of_Z <$> (acc ++ [z]))
      by now rewrite fmap_app.
    rewrite (IH (acc ++ [z])) by now rewrite <- app_assoc.
    now rewrite <- app_assoc.
Qed.

(** X14: with the ignore set built from the setting by
    [normalizeIgnoreExitCodes], an integer exit code raises no alert, and
    leaves the controller as it is, exactly when it is zero or the truncation
    of a finite number of the setting; any other integer exit code goes to
    [triggerSound].  An undefined exit code raises no alert. *)
Theorem exit_code_ignored (c : controller) (now : number) (raw : jsval) (z : Z) :
  enabled (config c) = true ->
  ignoreExitCodeSet (config c) = new_Set (normalizeIgnoreExitCodes raw) ->
  let values := normalizeUnknownArray raw DEFAULT_IGNORE_EXIT_CODES in
  (z = 0 \/ exit_code_of values z ->
     onTerminalExecutionEnd c now (Some (of_Z z)) = ([], c)) /\
  (z <> 0 -> ~ exit_code_of values z ->
     onTerminalExecutionEnd c now (Some (of_Z z))
     = triggerSound c now (NonZeroExitCode (of_Z z))) /\
  onTerminalExecutionEnd c now None = ([], c).
Proof.
  intros Henabled Hset values.
  destruct (collect_exit_codes_spec values [] (NoDup_nil_2) (not_elem_of_nil 0))
    as (zs & Heq & Hnd & Hz & Hiff).
  assert (Hhas : existsb (SameValueZero (of_Z z)) (ignoreExitCodeSet (config c))
                 = bool_decide (z ∈ zs)).
  { rewrite Hset. unfold normalizeIgnoreExitCodes. fold values.
    cbn [fmap list_fmap] in Heq. rewrite Heq. unfold new_Set.
    pose proof (foldl_Set_add_of_Z zs [] Hnd) as Hfold.
    cbn [app] in Hfold. change (of_Z <$> []) with (@nil number) in Hfold.
    rewrite Hfold. apply Set_has_of_Z. }
  assert (Hstep : onTerminalExecutionEnd c now (Some (of_Z z))
                  = if bool_decide (z = 0) || bool_decide (z ∈ zs) then ([], c)
                    else triggerSound c now (NonZeroExitCode (of_Z z))).
  { unfold onTerminalExecutionEnd. rewrite Henabled. cbn [negb].
    now rewrite strict_eqb_of_Z, Hhas. }
  split; [| split].
  - intros [-> | Hcode]; rewrite Hstep.
    + now rewrite bool_decide_eq_true_2.
    + rewrite (bool_decide_eq_true_2 (z ∈ zs)); [now rewrite orb_true_r |].
      apply Hiff. now right.
  - intros Hne Hnot. rewrite Hstep.
    rewrite bool_decide_eq_false_2 by exact Hne.
    rewrite bool_decide_eq_false_2; [reflexivity |].
    intros Hin. apply Hiff in Hin as [Hin | Hin]; [now apply elem_of_nil in Hin | auto].
  - unfold onTerminalExecutionEnd. now rewrite Henabled.
Qed.

(** *** Terminal output *)

(** X15: a chunk that matches discards the buffer of its terminal, whether
    or not the sound is then played, so the next chunk is matched on its own;
    a chunk that does not match is kept in the buffer and raises nothing; the
    buffers of the other terminals are not touched.  While the extension or
    the scanning is disabled, or there is no pattern, a chunk is dropped: the
    controller stays as it is. *)
Theorem terminal_data_buffer (c : controller) (now : number)
    (terminal other : Terminal) (data : jsstring) :
  let active := enabled (config c) && outputScanningEnabled (config c)
                && negb (length (compiledPatterns (config c)) =? 0)%nat in
  let matched :=
    (matches exec (matcher c) terminal data (compiledPatterns (config c))).1.1 in
  let result := onTerminalData exec c now terminal data in
  (active = false -> result = ([], c)) /\
  (active = true -> matched = true ->
     buffers (matcher result.2) !! terminal = None) /\
  (active = true -> matched = false ->
     result.1 = [] /\
     buffers (matcher result.2) !! terminal
     = Some (combined_text (matcher c) terminal data)) /\
  (other <> terminal ->
     buffers (matcher result.2) !! other = buffers (matcher c) !! other).
Proof.
  intros active matched result. subst active matched result.
  unfold onTerminalData.
  destruct (enabled (config c)), (outputScanningEnabled (config c));
    cbn [negb orb andb];
    try (repeat split; intros; try discriminate; reflexivity).
  destruct (compiledPatterns (config c)) as [| p ps] eqn:Hps.
  { cbn [length Nat.eqb negb].
    repeat split; intros; try discriminate; reflexivity. }
  cbn [length Nat.eqb negb].
  pose proof (matches_matcher exec (matcher c) terminal data (p :: ps)) as Hm.
  destruct (matches exec (matcher c) terminal data (p :: ps)) as [[b m1] ps1].
  cbn [fst snd] in *. subst m1.
  destruct b; cbn [negb].
  - pose proof (triggerSound_cases
                  (set_matcher
                     (set_compiledPatterns
                        (set_matcher c
                           {| buffers := <[terminal := combined_text (matcher c) terminal data]>
                                           (buffers (matcher c));
                              maxBufferChars := maxBufferChars (matcher c) |}) ps1)
                     (clear {| buffers := <[terminal := combined_text (matcher c) terminal data]>
                                            (buffers (matcher c));
                               maxBufferChars := maxBufferChars (matcher c) |} terminal))
                  now MatchingOutputPattern) as (_ & Hmatcher & _).
    cbv zeta in Hmatcher. rewrite Hmatcher. cbn [set_matcher matcher clear buffers].
    repeat split; intros; try discriminate.
    + apply lookup_delete_eq.
    + rewrite lookup_delete_ne by congruence. now rewrite lookup_insert_ne by congruence.
  - cbn [fst snd set_compiledPatterns set_matcher matcher buffers].
    repeat split; intros; try discriminate.
    + apply lookup_insert_eq.
    + now rewrite lookup_insert_ne by congruence.
Qed.

(** *** The rate of the alerts *)

(** What one event does to the gate: nothing, or one allowed call at the
    time of the event, which is when it asks for the sound. *)
Lemma handle_gate (c : controller) now e :
  let result := handle exec c now e in
  soundPathReady result.2 = soundPathReady c /\
  ((existsb is_PlaySound result.1 = false /\
    debounceGate result.2 = debounceGate c) \/
   (existsb is_PlaySound result.1 = true /\
    soundPathReady c = true /\
    Debounce.canTrigger (debounceGate c) now = (true, debounceGate result.2))).
Proof.
  assert (Hidle : soundPathReady c = soundPathReady c /\
                  ((existsb is_PlaySound [] = false /\
                    debounceGate c = debounceGate c) \/
                   (existsb is_PlaySound [] = true /\
                    soundPathReady c = true /\
                    Debounce.canTrigger (debounceGate c) now = (true, debounceGate c))))
    by (split; [reflexivity | left; now split]).
  destruct e as [terminal data | exitCode | terminal | outcome]; cbn [handle].
  - unfold onTerminalData.
    destruct (negb (enabled (config c)) || negb (outputScanningEnabled (config c)));
      [exact Hidle |].
    destruct (length (compiledPatterns (config c)) =? 0)%nat; [exact Hidle |].
    destruct (matches exec (matcher c) terminal data (compiledPatterns (config c)))
      as [[b m1] ps1].
    destruct b; cbn [negb]; [| exact Hidle].
    match goal with |- context [triggerSound ?c1 now ?r] =>
      destruct (triggerSound_cases c1 now r) as (_ & _ & Hready & Hgate) end.
    split; [exact Hready | exact Hgate].
  - unfold onTerminalExecutionEnd.
    destruct (negb (enabled (config c))); [exact Hidle |].
    destruct exitCode as [code |]; [| exact Hidle].
    destruct (strict_eqb code (of_Z 0) || _); [exact Hidle |].
    destruct (triggerSound_cases c now (NonZeroExitCode code))
      as (_ & _ & Hready & Hgate).
    split; [exact Hready | exact Hgate].
  - exact Hidle.
  - unfold playSound_settled. destruct outcome as [failure |].
    + case_bool_decide; cbn; (split; [reflexivity | left; now split]).
    + cbn. split; [reflexivity | left; now split].
Qed.

(** X16: over any sequence of events, of any terminals, the controller asks
    for the sound at times that are spaced by the window of its gate: with a
    positive window, no request comes less than the window after the request
    before it.  It asks for no sound at all while the sound path is not
    ready. *)
Theorem plays_spaced (c : controller) (events : list (number * event Terminal)) :
  (is_positive (Debounce.debounceMs (debounceGate c)) ->
   spaced (Debounce.debounceMs (debounceGate c))
          (Debounce.lastTriggeredAt (debounceGate c))
          (play_times exec c events)) /\
  (soundPathReady c = false -> play_times exec c events = []).
Proof.
  split.
  - revert c. induction events as [| [now e] events IH]; intros c Hpos; [exact I |].
    cbn [play_times]. pose proof (handle_gate c now e) as (_ & Hgate).
    destruct (handle exec c now e) as [effects c1]. cbn [fst snd] in Hgate.
    destruct Hgate as [(-> & Hsame) | (-> & _ & Hcall)].
    + cbn [app]. rewrite <- Hsame. apply IH. now rewrite Hsame.
    + cbn [app spaced].
      rewrite (DebounceSpec.canTrigger_positive _ now Hpos) in Hcall.
      destruct (ltb (sub now (Debounce.lastTriggeredAt (debounceGate c)))
                    (Debounce.debounceMs (debounceGate c))) eqn:Hnear;
        [discriminate |].
      injection Hcall as Hgate1. split; [reflexivity |].
      specialize (IH c1). rewrite <- Hgate1 in IH. now apply IH.
  - revert c. induction events as [| [now e] events IH]; intros c Hready;
      [reflexivity |].
    cbn [play_times]. pose proof (handle_gate c now e) as (Hkeep & Hgate).
    destruct (handle exec c now e) as [effects c1]. cbn [fst snd] in *.
    destruct Hgate as [(-> & _) | (_ & Habs & _)]; [| congruence].
    cbn [app]. apply IH. congruence.
Qed.

(** *** Playback failures *)

(** X17: a failure is shown when it differs from the failure of the play
    before it, and only then: the same failure repeated any number of times
    in a row is shown once, a failure equal to the last one recorded is not
    shown, and after a play that succeeded a failure is shown again, unless
    its text is empty. *)
Theorem repeated_failure_shown_once (c : controller) (failure : jsstring) (n : nat) :
  (failure <> lastPlaybackError c ->
     shown_failures c (replicate (S n) (Some failure)) = [failure_text failure]) /\
  shown_failures c (replicate n (Some (lastPlaybackError c))) = [] /\
  (failure <> [] ->
     shown_failures c [None; Some failure] = [failure_text failure]) /\
  shown_failures c [None; Some []] = [].
Proof.
  assert (Hsame : forall (c0 : controller) k,
             shown_failures c0 (replicate k (Some (lastPlaybackError c0))) = []).
  { intros c0 k. induction k as [| k IH]; [reflexivity |].
    cbn [replicate shown_failures playSound_settled].
    rewrite bool_decide_eq_false_2 by (intros Hne; now apply Hne).
    exact IH. }
  split; [| split; [apply Hsame | split]].
  - intros Hnew. cbn [replicate shown_failures playSound_settled].
    rewrite bool_decide_eq_true_2 by exact Hnew.
    cbn [omap list_omap app]. f_equal.
    apply (Hsame (set_lastPlaybackError c failure) n).
  - intros Hnonempty. cbn [shown_failures playSound_settled].
    cbn [set_lastPlaybackError lastPlaybackError].
    now rewrite bool_decide_eq_true_2 by exact Hnonempty.
  - cbn [shown_failures playSound_settled set_lastPlaybackError lastPlaybackError].
    now rewrite bool_decide_eq_false_2 by (intros Hne; now apply Hne).
Qed.

End Props.

End ControllerSpec.

(** ** The sound player *)

Module SoundPlayerSpec.

Import SoundPlayer.

(** *** PowerShell literals *)

Lemma match_length_quote c s :
  match_length (Chars (one QUOTE)) (c :: s)
  = if (c =? QUOTE)%N then Some 1%nat else None.
Proof.
  unfold match_length. cbn [match_at]. unfold one.
  destruct (c =? QUOTE)%N; [| reflexivity].
  f_equal. cbn [length]. lia.
Qed.

Lemma escaped_cons c value :
  escaped (c :: value)
  = (if (c =? QUOTE)%N then [QUOTE; QUOTE] else [c]) ++ escaped value.
Proof.
  unfold escaped. cbn [replace_matches]. rewrite match_length_quote.
  now destruct (c =? QUOTE)%N.
Qed.

Lemma escaped_app value more : escaped (value ++ more) = escaped value ++ escaped more.
Proof.
  induction value as [| c value IH]; [reflexivity |].
  cbn [app]. now rewrite !escaped_cons, IH, <- app_assoc.
Qed.

(** The body of the literal, read up to the first single quote that the
    replacement did not double. *)
Lemma read_quoted_escaped value c rest :
  plain_quotes value ->
  is_single_quote c = true ->
  match rest with d :: _ => is_single_quote d = false | [] => True end ->
  read_quoted (escaped value ++ c :: rest) = Some (value, rest).
Proof.
  intros Hplain Hc Hrest. induction Hplain as [| u value Hu _ IH].
  - cbn [escaped replace_matches].
    change (match_length (Chars (one QUOTE)) []) with (@None nat).
    cbn [app read_quoted]. rewrite Hc.
    destruct rest as [| d rest1]; [reflexivity |]. now rewrite Hrest.
  - rewrite escaped_cons. destruct (N.eqb_spec u QUOTE) as [-> | Hne].
    + cbn [app read_quoted]. change (is_single_quote QUOTE) with true. cbv iota.
      now rewrite IH.
    + cbn [app read_quoted]. destruct (is_single_quote u) eqn:Hq.
      * now specialize (Hu eq_refl).
      * now rewrite IH.
Qed.

Lemma read_literal_escaped value rest :
  plain_quotes value ->
  match rest with d :: _ => is_single_quote d = false | [] => True end ->
  read_PowerShell_literal (asPowerShellLiteral value ++ rest) = Some (value, rest).
Proof.
  intros Hplain Hrest. unfold asPowerShellLiteral, read_PowerShell_literal.
  cbn [app]. change (is_single_quote QUOTE) with true. cbv iota.
  rewrite <- app_assoc. cbn [app]. now apply read_quoted_escaped.
Qed.

(** A typographic single quote before a unit that is no single quote ends
    the string read. *)
Lemma read_literal_stops (before : jsstring) (c d : code_unit) (after rest : jsstring) :
  plain_quotes before ->
  is_single_quote c = true -> c <> QUOTE ->
  is_single_quote d = false ->
  read_PowerShell_literal (asPowerShellLiteral (before ++ c :: d :: after) ++ rest)
  = Some (before, d :: escaped after ++ QUOTE :: rest).
Proof.
  intros Hplain Hc Hcurly Hd.
  assert (Hnot : d <> QUOTE) by (intros ->; discriminate).
  unfold asPowerShellLiteral, read_PowerShell_literal.
  fold (escaped (before ++ c :: d :: after)).
  cbn [app]. change (is_single_quote QUOTE) with true. cbv iota.
  rewrite escaped_app, !escaped_cons.
  destruct (N.eqb_spec c QUOTE); [contradiction |].
  destruct (N.eqb_spec d QUOTE); [contradiction |].
  rewrite <- !app_assoc. cbn [app].
  now apply read_quoted_escaped.
Qed.

(** X18: the literal [asPowerShellLiteral] builds is read by PowerShell's
    rule for single-quoted strings.  When the only single quotes of the value
    are U+0027, the literal reads back as the value, whatever the number of
    quotes, and the reading stops right after the literal.  A typographic
    single quote (U+2018, U+2019, U+201A or U+201B) is not doubled: when one
    stands before a unit that is no single quote, the string read ends there,
    and what follows it in the value is left to be read as script. *)
Theorem PowerShell_literal_reads_back (value rest : jsstring) :
  (plain_quotes value ->
   match rest with d :: _ => is_single_quote d = false | [] => True end ->
   read_PowerShell_literal (asPowerShellLiteral value ++ rest) = Some (value, rest)) /\
  (forall before c d after,
     value = before ++ c :: d :: after ->
     plain_quotes before ->
     is_single_quote c = true -> c <> QUOTE ->
     is_single_quote d = false ->
     read_PowerShell_literal (asPowerShellLiteral value ++ rest)
     = Some (before, d :: escaped after ++ QUOTE :: rest)).
Proof.
  split; [apply read_literal_escaped |].
  intros before c d after ->. apply read_literal_stops.
Qed.

(** A path with a quote in it, followed by the rest of the script; and the
    same path with a typographic quote. *)
Lemma PowerShell_literal_reads_back_witness :
  let rest := str "; $player.Load()" in
  read_PowerShell_literal (asPowerShellLiteral (str "C:\it's here\faaah.wav") ++ rest)
  = Some (str "C:\it's here\faaah.wav", rest) /\
  read_PowerShell_literal
    (asPowerShellLiteral (str "C:\it" ++ 8217%N :: str "s here\faaah.wav") ++ rest)
  = Some (str "C:\it", str "s here\faaah.wav'" ++ rest).
Proof.
  intros rest. split.
  - apply (proj1 (PowerShell_literal_reads_back (str "C:\it's here\faaah.wav") rest)).
    + unfold plain_quotes. vm_compute. repeat constructor; discriminate.
    + reflexivity.
  - apply (proj2 (PowerShell_literal_reads_back
                    (str "C:\it" ++ 8217%N :: str "s here\faaah.wav") rest)
             (str "C:\it") 8217%N 115%N (str " here\faaah.wav")).
    + reflexivity.
    + unfold plain_quotes. vm_compute. repeat constructor; discriminate.
    + reflexivity.
    + discriminate.
    + reflexivity.
Defined.

(** *** Linux players *)

(** X19: when the cache holds nothing for the extension,
    [resolveLinuxPlayer] returns the first player of the list for the
    extension (the WAV list for ".wav", the MP3 list for anything else) whose
    command is available, every player before it being unavailable; or null
    when no command of the list is available.  The answer is stored in the
    cache, null included. *)
Theorem first_available_player (available : jsstring -> bool)
    (cache : gmap jsstring (option LinuxPlayer)) (extension : jsstring) :
  cache !! extension = None ->
  let candidates :=
    if bool_decide (extension = str ".wav") then LINUX_WAV_PLAYERS
    else LINUX_MP3_PLAYERS in
  let result := resolveLinuxPlayer available cache extension in
  result.2 !! extension = Some result.1 /\
  match result.1 with
  | Some player =>
      exists before after,
        candidates = before ++ player :: after /\
        available (command player) = true /\
        Forall (fun p => available (command p) = false) before
  | None => Forall (fun p => available (command p) = false) candidates
  end.
Proof.
  intros Hmiss candidates result. subst result. unfold resolveLinuxPlayer.
  rewrite Hmiss. fold candidates.
  assert (Hloop : match first_available available candidates with
                  | Some player =>
                      exists before after,
                        candidates = before ++ player :: after /\
                        available (command player) = true /\
                        Forall (fun p => available (command p) = false) before
                  | None => Forall (fun p => available (command p) = false) candidates
                  end).
  { clearbody candidates. induction candidates as [| p ps IH]; [constructor |].
    cbn [first_available]. destruct (available (command p)) eqn:Hp.
    - exists [], ps. repeat split; [exact Hp | constructor].
    - destruct (first_available available ps) as [player |].
      + destruct IH as (before & after & -> & Hplayer & Hbefore).
        exists (p :: before), after. repeat split; [exact Hplayer |].
        now constructor.
      + now constructor. }
  destruct (first_available available candidates) as [player |];
    cbn [fst snd]; (split; [apply lookup_insert_eq | exact Hloop]).
Qed.

(** A machine with [mpv] and [cvlc] only, asked for a player of ".mp3". *)
Lemma first_available_player_witness :
  let available := fun cmd => bool_decide (cmd ∈ [str "mpv"; str "cvlc"]) in
  exists player,
    (resolveLinuxPlayer available ∅ (str ".mp3")).1 = Some player /\
    command player = str "mpv".
Proof.
  intros available.
  pose proof (first_available_player available ∅ (str ".mp3") eq_refl) as [_ Hpick].
  cbv zeta in Hpick.
  destruct (resolveLinuxPlayer available ∅ (str ".mp3")).1 as [player |] eqn:Hres.
  - exists player. split; [reflexivity |].
    vm_compute in Hres. injection Hres as <-. reflexivity.
  - vm_compute in Hres. discriminate.
Defined.

(** A cached answer is given again. *)
Lemma resolve_cached (available : jsstring -> bool)
    (cache : gmap jsstring (option LinuxPlayer)) (extension : jsstring)
    (player : option LinuxPlayer) :
  cache !! extension = Some player ->
  resolveLinuxPlayer available cache extension = (player, cache).
Proof.
  intros Hhit. unfold resolveLinuxPlayer. now rewrite Hhit.
Qed.

(** A call leaves the entries of the cache as they are. *)
Lemma resolve_keeps_cached (available : jsstring -> bool)
    (cache : gmap jsstring (option LinuxPlayer)) (extension other : jsstring)
    (player : option LinuxPlayer) :
  cache !! other = Some player ->
  (resolveLinuxPlayer available cache extension).2 !! other = Some player.
Proof.
  intros Hhit. unfold resolveLinuxPlayer.
  destruct (cache !! extension) as [cached |] eqn:Hext; [exact Hhit |].
  assert (extension <> other) by congruence.
  destruct (first_available available _); cbn [snd];
    now rewrite lookup_insert_ne.
Qed.

Lemma resolve_all_cached (cache : gmap jsstring (option LinuxPlayer))
    (extension : jsstring) (player : option LinuxPlayer)
    (calls : list ((jsstring -> bool) * jsstring)) (i : nat)
    (available : jsstring -> bool) :
  cache !! extension = Some player ->
  calls !! i = Some (available, extension) ->
  resolve_all cache calls !! i = Some player.
Proof.
  revert cache i. induction calls as [| [a e] calls IH]; intros cache i Hhit Hcall.
  - now rewrite lookup_nil in Hcall.
  - cbn [resolve_all].
    pose proof (resolve_keeps_cached a cache e extension player Hhit) as Hkept.
    destruct (resolveLinuxPlayer a cache e) as [answer cache1] eqn:Hres.
    cbn [snd] in Hkept. destruct i as [| i].
    + cbn in Hcall. injection Hcall as -> ->.
      rewrite (resolve_cached available cache extension player Hhit) in Hres.
      cbn. congruence.
    + cbn in Hcall |- *. now apply (IH cache1 i).
Qed.

(** X20: a player is looked up once per extension: after a first call for
    an extension, every later call for it on the same player object returns
    what the first call returned, null included, whatever commands have become
    available or unavailable since and whatever other extensions are resolved
    in between. *)
Theorem player_resolved_once (available : jsstring -> bool)
    (cache : gmap jsstring (option LinuxPlayer)) (extension : jsstring)
    (calls : list ((jsstring -> bool) * jsstring)) (i : nat)
    (later : jsstring -> bool) :
  let first := resolveLinuxPlayer available cache extension in
  calls !! i = Some (later, extension) ->
  resolve_all first.2 calls !! i = Some first.1.
Proof.
  intros first Hcall.
  apply (resolve_all_cached first.2 extension first.1 calls i later);
    [| exact Hcall].
  subst first. unfold resolveLinuxPlayer.
  destruct (cache !! extension) as [cached |] eqn:Hext; [exact Hext |].
  destruct (first_available available _); cbn [fst snd]; apply lookup_insert_eq.
Qed.

(** No player at first; [paplay] is installed later, but null stays the
    answer for ".wav". *)
Lemma player_resolved_once_witness :
  let nothing := fun _ : jsstring => false in
  let everything := fun _ : jsstring => true in
  let first := resolveLinuxPlayer nothing ∅ (str ".wav") in
  first.1 = None /\
  resolve_all first.2 [(everything, str ".mp3"); (everything, str ".wav")] !! 1%nat
  = Some None.
Proof.
  intros nothing everything first. split; [reflexivity |].
  exact (player_resolved_once nothing ∅ (str ".wav")
           [(everything, str ".mp3"); (everything, str ".wav")] 1 everything
           eq_refl).
Defined.

End SoundPlayerSpec.

(** ** The further properties on the examples *)

Module ExtrasExamples.

Import PatternMatcher LiteralEngine Controller ExampleController.
Import AnsiSpec MatcherExtras ControllerSpec.

(** Discarding the buffer of a session that has none. *)
Lemma clear_resets_session_witness :
  clear fresh 1%positive = fresh /\
  buffers (clear (run literal_exec fresh two_terminals).2 1%positive) !! 2%positive
  = buffers (run literal_exec fresh two_terminals).2 !! 2%positive.
Proof.
  split.
  - exact (proj2 (proj2 (proj2 (proj2
             (clear_resets_session literal_exec fresh 1%positive 2%positive [] []))))
             eq_refl).
  - apply (proj1 (proj2 (proj2 (proj2
             (clear_resets_session literal_exec (run literal_exec fresh two_terminals).2
                1%positive 2%positive [] []))))).
    discriminate.
Defined.

(** A pattern without flag is left as it is. *)
Lemma testRegExp_ignores_lastIndex_witness :
  (testRegExp literal_exec (literal (str "fatal")) (str "a fatal error")).2
  = literal (str "fatal").
Proof.
  exact (proj2 (proj2 (testRegExp_ignores_lastIndex literal_exec
                         (literal (str "fatal")) (str "a fatal error") 0))
           eq_refl).
Defined.

(** A colour code cut after its ESC. *)
Lemma escape_split_across_chunks_witness :
  let first := matches literal_exec fresh 1%positive (str "ab" ++ [ESC]) [] in
  let second := matches literal_exec first.1.2 1%positive (str "[31mred") first.2 in
  buffers second.1.2 !! 1%positive = Some (str "ab" ++ ESC :: str "[31mred").
Proof.
  apply (escape_split_across_chunks literal_exec fresh 1%positive (str "ab")
           (str "[31mred") []).
  - reflexivity.
  - not_in_literals.
  - not_in_literals.
  - vm_compute. reflexivity.
Defined.

(** The default setting ignores the exit code 130. *)
Lemma exit_code_ignored_witness :
  onTerminalExecutionEnd example_controller (of_Z 5400) (Some (of_Z 130))
  = ([], example_controller).
Proof.
  apply (proj1 (exit_code_ignored example_controller (of_Z 5400)
                  ConfigParser.JsUndefined 130 eq_refl eq_refl)).
  right. split; [discriminate |].
  exists (inject_Z 130). split; [apply list_elem_of_here | reflexivity].
Defined.

(** A chunk that matches leaves no buffer behind. *)
Lemma terminal_data_buffer_witness :
  buffers (matcher (onTerminalData literal_exec example_controller (of_Z 5000)
                      1%positive (str "fatal: not a git repository")).2)
    !! 1%positive = None.
Proof.
  apply (proj1 (proj2 (terminal_data_buffer literal_exec example_controller
                         (of_Z 5000) 1%positive 2%positive
                         (str "fatal: not a git repository")))).
  - reflexivity.
  - vm_compute. reflexivity.
Defined.

(** The events of the example: the sound is asked for at 5200 and at 6500. *)
Lemma plays_spaced_witness :
  play_times literal_exec example_controller example_events
  = [of_Z 5200; of_Z 6500] /\
  DebounceRuns.spaced (of_Z 1200) (of_Z 0)
    (play_times literal_exec example_controller example_events).
Proof.
  split; [vm_compute; reflexivity |].
  exact (proj1 (plays_spaced literal_exec example_controller example_events)
           eq_refl).
Defined.

(** Three plays that fail in the same way. *)
Lemma repeated_failure_shown_once_witness :
  shown_failures example_controller (replicate 3 (Some (str "No player")))
  = [failure_text (str "No player")].
Proof.
  apply (proj1 (repeated_failure_shown_once example_controller (str "No player") 2)).
  discriminate.
Defined.

End ExtrasExamples.

(** ** Playing a validated path *)

Module PlaybackSpec.

Import SoundPlayer Playback SoundPlayerSpec.

Section Props.

Variable extname : jsstring -> jsstring.
Variable toLowerCase : jsstring -> jsstring.
Variable platform : jsstring.
Variable pathToFileURL : jsstring -> jsstring.
Variable isCommandAvailable : jsstring -> bool.
Variable readable : jsstring -> bool.

Local Abbreviation validate := (validateSoundPath extname toLowerCase readable).
Local Abbreviation play_sound :=
  (play extname toLowerCase platform pathToFileURL isCommandAvailable).

(** The two tests of the extension agree. *)
Lemma supported_extension (extension : jsstring) :
  bool_decide (extension ∈ SUPPORTED_SOUND_EXTENSIONS)
  = bool_decide (extension = str ".wav") || bool_decide (extension = str ".mp3").
Proof.
  unfold SUPPORTED_SOUND_EXTENSIONS.
  destruct (decide (extension = str ".wav")) as [-> | Hwav].
  - vm_compute. reflexivity.
  - rewrite (bool_decide_eq_false_2 (extension = str ".wav")) by exact Hwav.
    cbn [orb]. apply bool_decide_ext.
    rewrite elem_of_cons, list_elem_of_singleton. tauto.
Qed.

(** A path that [validateSoundPath] accepts passes the test of [play]. *)
Lemma validated_play (cache : gmap jsstring (option LinuxPlayer))
    (soundPath : jsstring) :
  validate soundPath = None ->
  readable soundPath = true /\
  play_sound cache soundPath
  = if bool_decide (platform = str "darwin") then
      (Spawn (str "afplay") [soundPath], cache)
    else if bool_decide (platform = str "linux") then
      playOnLinux isCommandAvailable cache soundPath (toLowerCase (extname soundPath))
    else if bool_decide (platform = str "win32") then
      (playOnWindows pathToFileURL soundPath (toLowerCase (extname soundPath)), cache)
    else (Throws (str "Unsupported platform: " ++ platform), cache).
Proof.
  unfold validateSoundPath, play.
  pose proof (supported_extension (toLowerCase (extname soundPath))) as Hsame.
  destruct (bool_decide (toLowerCase (extname soundPath) ∈ SUPPORTED_SOUND_EXTENSIONS))
    eqn:Hsup; cbn [negb]; [| discriminate].
  destruct (readable soundPath); cbn [negb]; [| discriminate].
  intros _. split; [reflexivity |].
  symmetry in Hsame. apply orb_true_iff in Hsame as [-> | ->];
    cbn [negb andb]; [reflexivity |].
  now rewrite andb_false_r.
Qed.

(** X21: [validateSoundPath] and [play] accept the same extensions.  A path
    that [validateSoundPath] accepts is readable and is never rejected by
    [play] for its format: [play] goes on to the player of the platform.  A
    path with another extension is rejected by both, before [play] starts
    any process and whether or not the file can be read. *)
Theorem validated_path_is_played (cache : gmap jsstring (option LinuxPlayer))
    (soundPath : jsstring) :
  let extension := toLowerCase (extname soundPath) in
  (validate soundPath = None ->
     readable soundPath = true /\
     play_sound cache soundPath
     = if bool_decide (platform = str "darwin") then
         (Spawn (str "afplay") [soundPath], cache)
       else if bool_decide (platform = str "linux") then
         playOnLinux isCommandAvailable cache soundPath extension
       else if bool_decide (platform = str "win32") then
         (playOnWindows pathToFileURL soundPath extension, cache)
       else (Throws (str "Unsupported platform: " ++ platform), cache)) /\
  (extension ∉ SUPPORTED_SOUND_EXTENSIONS ->
     validate soundPath
     = Some (str "Unsupported file type " ++ DOUBLE_QUOTE ++ or_none extension
               ++ DOUBLE_QUOTE ++ str ". Only .wav and .mp3 are supported.") /\
     play_sound cache soundPath
     = (Throws (str "Unsupported sound format: " ++ or_none extension), cache)).
Proof.
  intros extension. split; [apply validated_play |].
  unfold validateSoundPath, play. fold extension.
  pose proof (supported_extension extension) as Hsame.
  intros Hnot. rewrite bool_decide_eq_false_2 in Hsame |- * by exact Hnot.
  symmetry in Hsame. apply orb_false_iff in Hsame as [-> ->].
  split; reflexivity.
Qed.

(** *** The scripts given to PowerShell *)

(** X22: in both scripts for Windows the sound path, or its file URL, stands
    as one single-quoted literal between fixed script text.  When the only
    single quotes of the path (of the URL) are U+0027, PowerShell reads the
    literal back whole, quotes included, and goes on with the rest of the
    script as it was written.  A path with a typographic single quote before
    a unit that is no single quote is read up to that quote only, the rest of
    the path being left in the script. *)
Theorem scripts_quote_the_path (soundPath : jsstring) :
  let wav_head :=
    str "$player = New-Object System.Media.SoundPlayer; $player.SoundLocation = " in
  let wav_tail := str "; $player.Load(); $player.PlaySync()" in
  let media_head :=
    str "Add-Type -AssemblyName presentationCore; $uri = [System.Uri]::new(" in
  let media_tail :=
    str "); $player = New-Object System.Windows.Media.MediaPlayer; $done = $false; $player.MediaEnded += { $script:done = $true }; $player.MediaFailed += { $script:done = $true }; $player.Open($uri); $player.Play(); $timeout = [DateTime]::UtcNow.AddSeconds(20); while (-not $script:done -and [DateTime]::UtcNow -lt $timeout) { Start-Sleep -Milliseconds 100 }; $player.Close()" in
  wavScript soundPath = wav_head ++ asPowerShellLiteral soundPath ++ wav_tail /\
  (plain_quotes soundPath ->
   read_PowerShell_literal (drop (length wav_head) (wavScript soundPath))
   = Some (soundPath, wav_tail)) /\
  (forall before c d after,
     soundPath = before ++ c :: d :: after ->
     plain_quotes before ->
     is_single_quote c = true -> c <> QUOTE ->
     is_single_quote d = false ->
     read_PowerShell_literal (drop (length wav_head) (wavScript soundPath))
     = Some (before, d :: escaped after ++ QUOTE :: wav_tail)) /\
  mediaPlayerScript pathToFileURL soundPath
  = media_head ++ asPowerShellLiteral (pathToFileURL soundPath) ++ media_tail /\
  (plain_quotes (pathToFileURL soundPath) ->
   read_PowerShell_literal
     (drop (length media_head) (mediaPlayerScript pathToFileURL soundPath))
   = Some (pathToFileURL soundPath, media_tail)).
Proof.
  intros wav_head wav_tail media_head media_tail.
  assert (Hwav : wavScript soundPath
                 = wav_head ++ asPowerShellLiteral soundPath ++ wav_tail).
  { unfold wavScript. cbn [join]. now rewrite <- !app_assoc. }
  assert (Hmedia : mediaPlayerScript pathToFileURL soundPath
                   = media_head ++ asPowerShellLiteral (pathToFileURL soundPath)
                       ++ media_tail).
  { unfold mediaPlayerScript. cbn [join]. now rewrite <- !app_assoc. }
  split; [exact Hwav | split; [| split; [| split; [exact Hmedia |]]]].
  - intros Hplain. rewrite Hwav, drop_app_length.
    now apply read_literal_escaped.
  - intros before c d after Hpath Hplain Hc Hcurly Hd.
    rewrite Hwav, drop_app_length. subst soundPath.
    now apply read_literal_stops.
  - intros Hplain. rewrite Hmedia, drop_app_length.
    now apply read_literal_escaped.
Qed.

(** *** The arguments of the Linux players *)

Lemma first_available_in (candidates : list LinuxPlayer) (player : LinuxPlayer) :
  first_available isCommandAvailable candidates = Some player ->
  player ∈ candidates.
Proof.
  induction candidates as [| p ps IH]; [discriminate |].
  cbn [first_available]. destruct (isCommandAvailable (command p)).
  - intros [= ->]. apply list_elem_of_here.
  - intros Hrest. apply list_elem_of_further. now apply IH.
Qed.

(** X23: on macOS, and on Linux when the player was not resolved before,
    a process that [play] starts gets the sound path as its last argument,
    whole and as it was given, whichever player is picked. *)
Theorem path_is_last_argument (cache : gmap jsstring (option LinuxPlayer))
    (soundPath : jsstring) :
  platform = str "darwin" \/
  (platform = str "linux" /\ cache !! toLowerCase (extname soundPath) = None) ->
  forall cmd arguments,
    (play_sound cache soundPath).1 = Spawn cmd arguments ->
    last arguments = Some soundPath.
Proof.
  intros Hplatform cmd arguments. unfold play.
  destruct (negb _ && negb _); [discriminate |].
  destruct Hplatform as [-> | [-> Hmiss]].
  - rewrite bool_decide_eq_true_2 by reflexivity. cbn [fst].
    now intros [= <- <-].
  - rewrite bool_decide_eq_false_2 by discriminate.
    rewrite bool_decide_eq_true_2 by reflexivity.
    unfold playOnLinux, resolveLinuxPlayer. rewrite Hmiss.
    set (candidates := if bool_decide _ then LINUX_WAV_PLAYERS else LINUX_MP3_PLAYERS).
    assert (Htable : Forall (fun p => last (args p soundPath) = Some soundPath)
                            candidates).
    { subst candidates. destruct (bool_decide _); repeat constructor. }
    destruct (first_available isCommandAvailable candidates) as [player |] eqn:Hpick;
      cbn [fst]; [| discriminate].
    intros [= <- <-]. apply first_available_in in Hpick.
    rewrite Forall_forall in Htable. now apply Htable.
Qed.

End Props.

(** A readable ".MP3" on macOS, the extension being lowered before it is
    tested. *)
Lemma validated_path_is_played_witness :
  let extname := fun _ : jsstring => str ".MP3" in
  let toLowerCase := fun _ : jsstring => str ".mp3" in
  (play extname toLowerCase (str "darwin") id (fun _ => false) ∅
     (str "/sounds/FAAAH.MP3")).1
  = Spawn (str "afplay") [str "/sounds/FAAAH.MP3"].
Proof.
  intros extname toLowerCase.
  pose proof (proj1 (validated_path_is_played extname toLowerCase (str "darwin")
                       id (fun _ => false) (fun _ => true) ∅
                       (str "/sounds/FAAAH.MP3")) eq_refl) as [_ Hplay].
  now rewrite Hplay.
Defined.

(** A ".wav" on a Linux machine with [aplay] only. *)
Lemma path_is_last_argument_witness :
  let available := fun cmd => bool_decide (cmd = str "aplay") in
  last (spawned_args
          (play (fun _ => str ".wav") id (str "linux") id available ∅
             (str "/sounds/faaah.wav")).1)
  = Some (str "/sounds/faaah.wav").
Proof.
  intros available.
  apply (path_is_last_argument (fun _ => str ".wav") id (str "linux") id
           available ∅ (str "/sounds/faaah.wav")
           (or_intror (conj eq_refl (lookup_empty _))) (str "aplay")).
  vm_compute. reflexivity.
Defined.

(** The script for a ".wav" whose path holds a quote, and for the same path
    with a typographic quote. *)
Lemma scripts_quote_the_path_witness :
  let soundPath := str "C:\it's here\faaah.wav" in
  let curlyPath := str "C:\it" ++ 8217%N :: str "s here\faaah.wav" in
  let wav_tail := str "; $player.Load(); $player.PlaySync()" in
  read_PowerShell_literal (drop 71 (wavScript soundPath))
  = Some (soundPath, wav_tail) /\
  read_PowerShell_literal (drop 71 (wavScript curlyPath))
  = Some (str "C:\it", str "s here\faaah.wav'" ++ wav_tail).
Proof.
  intros soundPath curlyPath wav_tail. split.
  - apply (proj1 (proj2 (scripts_quote_the_path id soundPath))).
    unfold plain_quotes. vm_compute. repeat constructor; discriminate.
  - apply (proj1 (proj2 (proj2 (scripts_quote_the_path id curlyPath)))
             (str "C:\it") 8217%N 115%N (str " here\faaah.wav")).
    + reflexivity.
    + unfold plain_quotes. vm_compute. repeat constructor; discriminate.
    + reflexivity.
    + discriminate.
    + reflexivity.
Defined.

End PlaybackSpec.

(** ** Reloading the configuration *)

Module ReloadSpec.

Import Controller SoundPlayer Playback Reload PlaybackSpec.

Section Props.

Context {Terminal : Type} `{Countable Terminal}.
Context {Src : Type}.

(** After a reload that ran alone the sound path is ready only if it was
    validated. *)
Lemma reload_ready_validated (validate : jsstring -> option jsstring)
    (bundled : jsstring) (c : FaaahController Terminal Src) (initialLoad : bool)
    (newConfig : RuntimeConfig Src) (resolved : jsstring) :
  let after := (reload_alone validate bundled c initialLoad newConfig resolved).2 in
  soundPathReady after = true ->
  validate (resolvedSoundPath after) = None /\
  (resolvedSoundPath after = resolved \/ resolvedSoundPath after = bundled).
Proof.
  unfold reload_alone, reloadConfiguration_finish, reloadConfiguration_call,
    reloadConfiguration_resume.
  cbn [fst snd config].
  destruct (validate resolved) as [validationError |] eqn:Hresolved.
  - destruct (0 <? length (trim (customSoundPath newConfig)))%nat; cbn [fst snd].
    + destruct (validate bundled) as [fallbackError |] eqn:Hbundled;
        cbn; [discriminate | intros _; split; [exact Hbundled | now right]].
    + cbn. discriminate.
  - cbn. intros _. split; [exact Hresolved | now left].
Qed.

(** The older of two reloads settling after the newer one has stored its
    path. *)
Lemma older_reload_settles (validate : jsstring -> option jsstring)
    (bundled : jsstring) (c : FaaahController Terminal Src) (initialLoad : bool)
    (soundPath : jsstring) :
  validate soundPath = None ->
  let after :=
    (reloadConfiguration_resume validate bundled c
       (AwaitValidation initialLoad soundPath)).1.2 in
  soundPathReady after = true /\ resolvedSoundPath after = resolvedSoundPath c.
Proof.
  intros Hvalid. unfold reloadConfiguration_resume. rewrite Hvalid.
  split; reflexivity.
Qed.

(** X24: [reloadConfiguration] and the sound path.  A reload that runs from
    its call to its end while nothing else runs marks the path ready only
    when it passed [validateSoundPath]: the resolved path, or the bundled
    sound in place of a custom path that failed; the path is not ready
    exactly when the resolved path failed and either no custom path is set or
    the bundled sound failed too; the reload installs the new snapshot and
    keeps the buffers of the matcher and the time of the last trigger.
    Reloads that overlap do not keep this: when a second reload is called
    while the validation of the first, which succeeds, is awaited, the first
    marks ready the path the second has stored, validated or not; and this
    is how the controller stays when the second reload has ended before,
    with its path found invalid and marked not ready. *)
Theorem reload_sound_path (validate : jsstring -> option jsstring)
    (bundled : jsstring) (c : FaaahController Terminal Src) (initialLoad : bool)
    (newConfig : RuntimeConfig Src) (resolved : jsstring) :
  let after := (reload_alone validate bundled c initialLoad newConfig resolved).2 in
  (soundPathReady after = true -> validate (resolvedSoundPath after) = None) /\
  (soundPathReady after = false <->
     validate resolved <> None /\
     (trim (customSoundPath newConfig) = [] \/ validate bundled <> None)) /\
  config after = newConfig /\
  matcher after = matcher c /\
  Debounce.lastTriggeredAt (debounceGate after)
  = Debounce.lastTriggeredAt (debounceGate c) /\
  (validate resolved = None ->
   forall (initialLoad2 : bool) (config2 : RuntimeConfig Src) (resolved2 : jsstring),
     let first := reloadConfiguration_call c initialLoad newConfig resolved in
     let second := reloadConfiguration_call first.1 initialLoad2 config2 resolved2 in
     let settled := (reloadConfiguration_resume validate bundled second.1 first.2).1.2 in
     (soundPathReady settled = true /\ resolvedSoundPath settled = resolved2) /\
     (let ended :=
        (reloadConfiguration_finish validate bundled second.1 second.2).2 in
      let last := (reloadConfiguration_resume validate bundled ended first.2).1.2 in
      soundPathReady ended = false ->
      soundPathReady last = true /\ resolvedSoundPath last = resolved2 /\
      validate (resolvedSoundPath last) <> None)).
Proof.
  intros after.
  split; [intros Hready; now apply reload_ready_validated |].
  split; [| split; [| split; [| split]]].
  - subst after.
    unfold reload_alone, reloadConfiguration_finish, reloadConfiguration_call,
      reloadConfiguration_resume.
    cbn [fst snd config].
    destruct (validate resolved) as [validationError |] eqn:Hresolved.
    + destruct (trim (customSoundPath newConfig)) as [| u rest] eqn:Hcustom;
        cbn [length Nat.ltb Nat.leb fst snd].
      * cbn. split; [intros _ | reflexivity].
        split; [discriminate | now left].
      * destruct (validate bundled) as [fallbackError |] eqn:Hbundled; cbn.
        -- split; [intros _ | reflexivity].
           split; [discriminate | right; discriminate].
        -- split; [discriminate |].
           intros (_ & [Hblank | Hbad]); [discriminate | congruence].
    + cbn. split; [discriminate |]. intros (Hbad & _). congruence.
  - subst after.
    unfold reload_alone, reloadConfiguration_finish, reloadConfiguration_call,
      reloadConfiguration_resume.
    cbn [fst snd config].
    destruct (validate resolved); [| reflexivity].
    destruct (0 <? length (trim (customSoundPath newConfig)))%nat; [| reflexivity].
    cbn [fst snd]. now destruct (validate bundled).
  - subst after.
    unfold reload_alone, reloadConfiguration_finish, reloadConfiguration_call,
      reloadConfiguration_resume.
    cbn [fst snd config].
    destruct (validate resolved); [| reflexivity].
    destruct (0 <? length (trim (customSoundPath newConfig)))%nat; [| reflexivity].
    cbn [fst snd]. now destruct (validate bundled).
  - subst after.
    unfold reload_alone, reloadConfiguration_finish, reloadConfiguration_call,
      reloadConfiguration_resume.
    cbn [fst snd config].
    destruct (validate resolved); [| reflexivity].
    destruct (0 <? length (trim (customSoundPath newConfig)))%nat; [| reflexivity].
    cbn [fst snd]. now destruct (validate bundled).
  - intros Hvalid initialLoad2 config2 resolved2 first second settled.
    split.
    + subst settled. apply older_reload_settles. exact Hvalid.
    + intros ended last Hended.
      assert (Hpath : resolvedSoundPath ended = resolved2 /\ validate resolved2 <> None).
      { revert Hended. subst ended second.
        unfold reloadConfiguration_finish, reloadConfiguration_call,
          reloadConfiguration_resume.
        cbn [fst snd config].
        destruct (validate resolved2) as [validationError |]; [| discriminate].
        destruct (0 <? length (trim (customSoundPath config2)))%nat; cbn [fst snd].
        - destruct (validate bundled); cbn; [| discriminate].
          intros _. split; [reflexivity | discriminate].
        - cbn. intros _. split; [reflexivity | discriminate]. }
      destruct Hpath as (Hpath & Hbad).
      assert (Hlast : soundPathReady last = true
                      /\ resolvedSoundPath last = resolvedSoundPath ended).
      { subst last. apply older_reload_settles. exact Hvalid. }
      destruct Hlast as (Hready & Hsame).
      split; [exact Hready | split; [congruence |]].
      rewrite Hsame, Hpath. exact Hbad.
Qed.

(** X25: the sound path from a reload to [play].  After a reload that ran
    alone, a path marked ready is the resolved or the bundled path and is
    never rejected by [play] for its format, on any platform: [play] goes on
    to the player of the platform with it.  While a reload is awaiting its
    validation this does not hold: on a controller whose path was ready, a
    trigger that the gate allows asks for the newly stored path before it is
    validated, and [play] rejects it when its extension is not supported. *)
Theorem ready_path_is_playable
    (extname toLowerCase : jsstring -> jsstring) (platform : jsstring)
    (pathToFileURL : jsstring -> jsstring)
    (isCommandAvailable readable : jsstring -> bool)
    (bundled : jsstring)
    (c : FaaahController Terminal Src) (initialLoad : bool)
    (newConfig : RuntimeConfig Src) (resolved : jsstring)
    (cache : gmap jsstring (option LinuxPlayer)) :
  let validate := validateSoundPath extname toLowerCase readable in
  let play_sound := play extname toLowerCase platform pathToFileURL isCommandAvailable in
  let after := (reload_alone validate bundled c initialLoad newConfig resolved).2 in
  let soundPath := resolvedSoundPath after in
  (soundPathReady after = true ->
   (soundPath = resolved \/ soundPath = bundled) /\
   play_sound cache soundPath
   = if bool_decide (platform = str "darwin") then
       (Spawn (str "afplay") [soundPath], cache)
     else if bool_decide (platform = str "linux") then
       playOnLinux isCommandAvailable cache soundPath (toLowerCase (extname soundPath))
     else if bool_decide (platform = str "win32") then
       (playOnWindows pathToFileURL soundPath (toLowerCase (extname soundPath)), cache)
     else (Throws (str "Unsupported platform: " ++ platform), cache)) /\
  (soundPathReady c = true ->
   forall (now : number) (r : reason),
     let awaiting := (reloadConfiguration_call c initialLoad newConfig resolved).1 in
     (Debounce.canTrigger (debounceGate awaiting) now).1 = true ->
     (triggerSound awaiting now r).1 = [LogInfo r; PlaySound resolved] /\
     (toLowerCase (extname resolved) ∉ SUPPORTED_SOUND_EXTENSIONS ->
      play_sound cache resolved
      = (Throws (str "Unsupported sound format: "
                 ++ or_none (toLowerCase (extname resolved))), cache))).
Proof.
  intros validate play_sound after soundPath.
  split.
  - intros Hready.
    destruct (reload_ready_validated validate bundled c initialLoad newConfig resolved
                Hready) as (Hvalid & Hpath).
    split; [exact Hpath |].
    now apply (validated_play extname toLowerCase platform pathToFileURL
                 isCommandAvailable readable cache soundPath).
  - intros Hready now r awaiting Hallowed. split.
    + unfold triggerSound. subst awaiting. cbn [reloadConfiguration_call fst soundPathReady].
      rewrite Hready. cbn [negb].
      cbn [reloadConfiguration_call fst debounceGate] in Hallowed.
      destruct (Debounce.canTrigger _ now) as [allowed gate1].
      cbn [fst] in Hallowed. subst allowed. reflexivity.
    + intros Hnot. subst play_sound. unfold play.
      pose proof (supported_extension extname toLowerCase platform pathToFileURL
                    isCommandAvailable readable (toLowerCase (extname resolved)))
        as Hsame.
      rewrite bool_decide_eq_false_2 in Hsame by exact Hnot.
      symmetry in Hsame. apply orb_false_iff in Hsame as [-> ->]. reflexivity.
Qed.

End Props.

End ReloadSpec.

(** ** Reloads on the example controller *)

Module ReloadExamples.

Import PatternMatcher LiteralEngine Controller ExampleController.
Import SoundPlayer Playback Reload ReloadSpec.

(** A custom sound of a format that is not supported, the bundled sound
    being readable: the reload, run alone, falls back to the bundled sound.
    Called while a reload with the bundled sound awaits its validation, it
    has its path marked ready by that reload. *)
Lemma reload_sound_path_witness :
  let validate :=
    validateSoundPath (fun p => drop (length p - 4) p) id
      (fun p => bool_decide (p = str "/ext/media/faaah.mp3")) in
  let bundled := str "/ext/media/faaah.mp3" in
  let after :=
    (reload_alone validate bundled example_controller false
       custom_sound_config (str "/home/u/boom.ogg")).2 in
  let first := reloadConfiguration_call example_controller false example_config bundled in
  let second :=
    reloadConfiguration_call first.1 false custom_sound_config (str "/home/u/boom.ogg") in
  let settled := (reloadConfiguration_resume validate bundled second.1 first.2).1.2 in
  (resolvedSoundPath after = bundled /\ validate (resolvedSoundPath after) = None) /\
  (soundPathReady settled = true /\ resolvedSoundPath settled = str "/home/u/boom.ogg") /\
  validate (str "/home/u/boom.ogg")
  = Some (str "Unsupported file type " ++ DOUBLE_QUOTE ++ str ".ogg" ++ DOUBLE_QUOTE
          ++ str ". Only .wav and .mp3 are supported.").
Proof.
  intros validate bundled after first second settled.
  split; [split; [reflexivity |] | split; [| reflexivity]].
  - apply (proj1 (reload_sound_path validate bundled example_controller false
                    custom_sound_config (str "/home/u/boom.ogg"))).
    reflexivity.
  - apply (proj1 (proj2 (proj2 (proj2 (proj2 (proj2
             (reload_sound_path validate bundled example_controller false
                example_config bundled))))) eq_refl false custom_sound_config
             (str "/home/u/boom.ogg"))).
Defined.

(** The same reload run alone, and a play on macOS afterwards; and a trigger
    while the reload awaits its validation. *)
Lemma ready_path_is_playable_witness :
  let extname := fun p : jsstring => drop (length p - 4) p in
  let readable := fun p : jsstring => bool_decide (p = str "/ext/media/faaah.mp3") in
  let bundled := str "/ext/media/faaah.mp3" in
  let play_sound := play extname id (str "darwin") id (fun _ => false) in
  let after :=
    (reload_alone (validateSoundPath extname id readable) bundled
       example_controller false custom_sound_config (str "/home/u/boom.ogg")).2 in
  let awaiting :=
    (reloadConfiguration_call example_controller false custom_sound_config
       (str "/home/u/boom.ogg")).1 in
  play_sound ∅ (resolvedSoundPath after) = (Spawn (str "afplay") [bundled], ∅) /\
  (triggerSound awaiting (of_Z 5000) MatchingOutputPattern).1
  = [LogInfo MatchingOutputPattern; PlaySound (str "/home/u/boom.ogg")] /\
  play_sound ∅ (str "/home/u/boom.ogg")
  = (Throws (str "Unsupported sound format: .ogg"), ∅).
Proof.
  intros extname readable bundled play_sound after awaiting.
  pose proof (ready_path_is_playable extname id (str "darwin") id
                (fun _ => false) readable bundled
                example_controller false custom_sound_config
                (str "/home/u/boom.ogg") ∅) as [Halone Hawaiting].
  split; [exact (proj2 (Halone eq_refl)) |].
  destruct (Hawaiting eq_refl (of_Z 5000) MatchingOutputPattern eq_refl)
    as [Hplay Hthrows].
  split; [exact Hplay |].
  apply Hthrows. vm_compute. intros Hin.
  apply elem_of_cons in Hin as [Heq | Hin]; [discriminate |].
  apply list_elem_of_singleton in Hin. discriminate.
Defined.

End ReloadExamples.
